(** * ShutdownManager: a shallow embedding of [mod.ts]

    The class [ShutdownManager] binds listeners on the Node [process] object,
    keeps an array of named hooks, and on the first exit signal runs the hooks
    one after another, each raced against a per-hook timer and one shared
    global timer, before calling [process.exit].

    The embedding follows the source method by method.

    - The asynchronous method [#processSignal] is a coroutine: its suspended
      frame (the position of the array iterator and the two local flags) is
      kept in the [World], and the input [Resume] stands for the event loop
      resuming it once the awaited [Promise.race] has settled.
    - Whatever else happens to the coordinator between two resumptions (calls
      of [addHook] and [disconnect], events emitted on the process, made by
      other tasks or by the body of the handler in flight) is an input that
      comes before that [Resume].
    - A handler is described by what its call does as seen by the loop: it
      throws, returns a settled result, returns a promise that settles after
      a delay, or returns a promise that never settles.  What a handler that
      returns does to the coordinator meanwhile is an input, as above; a
      handler that throws is taken to have left the coordinator as it was,
      since the loop goes on without suspending.
    - Time is in milliseconds and nominal: a timer or a promise is the
      instant at which it is due, and the clock of the [World] is the instant
      of the last race won.  The runtime fires a timer at or after its
      instant and a handler takes time to run; what the instants decide here
      is which entry of a race settles first.
    - The logger is optional, and is taken to return normally from every
      call.
    - Every observable action (logger calls, the abort event, handler calls,
      the completion of each hook's try block, and [process.exit]) is
      recorded in an effect trace, in the order in which it happens. *)

From Stdlib Require Import ZArith List String Ascii Bool Lia DecimalString.
Import ListNotations.
Set Warnings "-register-all".
Local Open Scope string_scope.
Local Open Scope Z_scope.
Local Open Scope list_scope.

(** ** JavaScript values, as far as the logging code inspects them *)

Module JS.

Inductive Value : Type :=
| Undefined
| Null
| Boolean (b : bool)
| Number (n : Z)
| Str (s : string)
| Function (id : nat)
| ErrorObject (message : string)              (* an instance of Error *)
| Object (fields : list (string * Value)).    (* a plain object literal *)

(** The [typeof] operator. *)
Definition typeof (v : Value) : string :=
  match v with
  | Undefined => "undefined"
  | Null => "object"
  | Boolean _ => "boolean"
  | Number _ => "number"
  | Str _ => "string"
  | Function _ => "function"
  | ErrorObject _ => "object"
  | Object _ => "object"
  end.

(** [v instanceof Error]. *)
Definition instanceofError (v : Value) : bool :=
  match v with
  | ErrorObject _ => true
  | _ => false
  end.

(** [v === s] for a string literal [s]. *)
Definition strictEqualsString (v : Value) (s : string) : bool :=
  match v with
  | Str s' => String.eqb s' s
  | _ => false
  end.

(** [`${n}`] for an integral number below 10^21 in magnitude, which covers
    every exit status; from there on the language prints an exponent. *)
Definition numberToString (n : Z) : string :=
  NilZero.string_of_int (Z.to_int n).

(** The value of an awaited expression: it either yields a value or throws. *)
Inductive Completion : Type :=
| Normal (v : Value)
| Thrown (e : Value).

End JS.
Import JS.

(** ** Timers ([node:timers/promises]) *)

Module Timers.

Definition TIMEOUT_MAX : Z := 2147483647.

(** Node sets a delay outside [1 .. TIMEOUT_MAX] to 1 millisecond. *)
Definition effectiveDelay (ms : Z) : Z :=
  if (1 <=? ms) && (ms <=? TIMEOUT_MAX) then ms else 1.

(** [timers.setTimeout(ms, value)] called at time [now]: the promise is
    represented by the instant at which it fulfils. *)
Definition setTimeout (now ms : Z) : Z := now + effectiveDelay ms.

End Timers.

(** ** Data model *)

Definition Signals := string.

(** What calling a hook's handler does, as seen by the caller.  The handler
    type is [() => Promise<void> | void], so a fulfilment carries [undefined]. *)
Inductive Outcome : Type :=
| Fulfils
| Rejects (reason : Value).

Inductive ShutdownHookHandler : Type :=
| Throws (e : Value)              (* throws before returning *)
| Immediate (o : Outcome)         (* returns [undefined] or an already settled promise *)
| After (d : Z) (o : Outcome)     (* returns a pending promise that settles [d] ms later *)
| Never.                          (* returns a promise that never settles *)

Record ShutdownHook : Type := {
  name : string;
  handler : ShutdownHookHandler
}.

Record ShutdownManagerArgs : Type := {
  opt_signals : option (list Signals);
  opt_log : bool;                        (* a logger was supplied *)
  opt_perHookTimeout : option Z;
  opt_shutdownTimeout : option Z
}.

Record AbortSignal : Type := {
  handle : nat;       (* identity of the signal object *)
  aborted : bool
}.

(** The private fields of the class. *)
Record ShutdownManager : Type := {
  handlers : list ShutdownHook;
  signals : list Signals;
  shuttingDown : bool;
  abortController : AbortSignal;
  log : bool;
  perHookTimeout : Z;
  shutdownTimeout : Z
}.

(** Events of the [process] emitter and the functions listening on them. *)
Inductive ProcessEvent : Type :=
| uncaughtException
| unhandledRejection
| exit
| OnSignal (s : Signals).

Inductive Listener : Type :=
| ProcessErrorsFn                   (* this.#processErrors *)
| ProcessSignalFn (s : Signals)     (* this.#processSignal.bind(this, s) *)
| OnExitFn                          (* this.#onExit *)
| ForeignFn (id : nat).             (* a listener of other code *)

(** The locals of a suspended [#processSignal] call. *)
Record Frame : Type := {
  signal : Signals;
  index : nat;              (* position of the array iterator *)
  withError : bool;
  forceExit : bool;
  globalTimeout : Z         (* instant at which the shared timer fulfils *)
}.

Record World : Type := {
  this : ShutdownManager;
  listeners : list (ProcessEvent * Listener);
  suspended : option Frame;
  clock : Z                 (* nominal instant of the last race won *)
}.

(** ** The effect trace *)

Inductive LogLine : Type :=
| Registered (hook : string)
| Exiting (code : Z)
| Uncaught (error : Value)
| Ignoring (s : Signals)
| ProcessingSignal (s : Signals)
| ProcessingHook (hook : string)
| TimedOut (hook : string)
| Successful (hook : string)
| Unsuccessful (hook : string) (error : Value)
| Completed (s : Signals)
| NotGraceful
| GlobalReached.

Inductive Effect : Type :=
| Log (l : LogLine)                          (* a call on the supplied logger *)
| AbortEvent                                 (* the abort signal fires *)
| Call (h : ShutdownHook)                    (* [handler()] is called *)
| Settled (h : ShutdownHook) (c : Completion) (* the try block of that hook completes *)
| Exit (code : Z).                           (* [process.exit(code)] *)

(** *** The arguments each log line passes to the logger *)

Inductive Level : Type := LevelInfo | LevelWarn | LevelError.

Record LogCall : Type := {
  level : Level;
  args : list Value
}.

Definition dquote : string := String "034"%char EmptyString.

Definition quoted (hook : string) : string := dquote ++ hook ++ dquote.

(** [typeof error === "object" ? error : { error }] *)
Definition uncaughtContext (error : Value) : Value :=
  if String.eqb (typeof error) "object" then error
  else Object [("error", error)].

(** [error instanceof Error ? error : { error }] *)
Definition hookErrorContext (error : Value) : Value :=
  if instanceofError error then error
  else Object [("error", error)].

Definition signalContext (s : Signals) : Value := Object [("signal", Str s)].

Definition render (l : LogLine) : LogCall :=
  match l with
  | Registered n =>
      {| level := LevelInfo; args := [Str ("Registered " ++ quoted n ++ " hook")] |}
  | Exiting code =>
      {| level := LevelInfo;
         args := [Str ("Exiting with status code of " ++ numberToString code)] |}
  | Uncaught e =>
      {| level := LevelError; args := [uncaughtContext e; Str "Uncaught/Unhandled"] |}
  | Ignoring s =>
      {| level := LevelWarn;
         args := [signalContext s;
                  Str "Ignoring process exit signal has the app is shutting down."] |}
  | ProcessingSignal s =>
      {| level := LevelInfo; args := [signalContext s; Str "Processing exit signal"] |}
  | ProcessingHook n =>
      {| level := LevelInfo; args := [Str ("Processing " ++ quoted n ++ " hook")] |}
  | TimedOut n =>
      {| level := LevelInfo; args := [Str ("Timed out " ++ quoted n ++ " hook")] |}
  | Successful n =>
      {| level := LevelInfo; args := [Str ("Successful " ++ quoted n ++ " hook")] |}
  | Unsuccessful n e =>
      {| level := LevelError;
         args := [hookErrorContext e; Str ("Unsuccessful " ++ quoted n ++ " hook")] |}
  | Completed s =>
      {| level := LevelInfo;
         args := [signalContext s; Str "Exit signal process completed"] |}
  | NotGraceful =>
      {| level := LevelWarn;
         args := [Str "Looks like some handlers where not able to be processed gracefully"] |}
  | GlobalReached =>
      {| level := LevelWarn; args := [Str "Looks like the global timeout was reached"] |}
  end.

(** [this.#log?.level(...)]: nothing is logged without a logger.  With one,
    the call is recorded; it returns normally. *)
Definition emitLog (logger : bool) (l : LogLine) : list Effect :=
  if logger then [Log l] else [].

Definition say (sm : ShutdownManager) (l : LogLine) : list Effect :=
  emitLog (log sm) l.

(** ** Field updates *)

Definition set_handlers (sm : ShutdownManager) (hs : list ShutdownHook) : ShutdownManager :=
  {| handlers := hs; signals := signals sm; shuttingDown := shuttingDown sm;
     abortController := abortController sm; log := log sm;
     perHookTimeout := perHookTimeout sm; shutdownTimeout := shutdownTimeout sm |}.

Definition set_shuttingDown (sm : ShutdownManager) (b : bool) : ShutdownManager :=
  {| handlers := handlers sm; signals := signals sm; shuttingDown := b;
     abortController := abortController sm; log := log sm;
     perHookTimeout := perHookTimeout sm; shutdownTimeout := shutdownTimeout sm |}.

Definition set_abortController (sm : ShutdownManager) (a : AbortSignal) : ShutdownManager :=
  {| handlers := handlers sm; signals := signals sm; shuttingDown := shuttingDown sm;
     abortController := a; log := log sm;
     perHookTimeout := perHookTimeout sm; shutdownTimeout := shutdownTimeout sm |}.

Definition with_this (w : World) (sm : ShutdownManager) : World :=
  {| this := sm; listeners := listeners w; suspended := suspended w; clock := clock w |}.

Definition with_listeners (w : World) (ls : list (ProcessEvent * Listener)) : World :=
  {| this := this w; listeners := ls; suspended := suspended w; clock := clock w |}.

Definition with_suspended (w : World) (f : option Frame) : World :=
  {| this := this w; listeners := listeners w; suspended := f; clock := clock w |}.

Definition with_clock (w : World) (t : Z) : World :=
  {| this := this w; listeners := listeners w; suspended := suspended w; clock := t |}.

Definition set_withError (f : Frame) (b : bool) : Frame :=
  {| signal := signal f; index := index f; withError := b;
     forceExit := forceExit f; globalTimeout := globalTimeout f |}.

Definition set_forceExit (f : Frame) (b : bool) : Frame :=
  {| signal := signal f; index := index f; withError := withError f;
     forceExit := b; globalTimeout := globalTimeout f |}.

(** The array iterator moves to the next position. *)
Definition next (f : Frame) : Frame :=
  {| signal := signal f; index := S (index f); withError := withError f;
     forceExit := forceExit f; globalTimeout := globalTimeout f |}.

(** ** The [process] emitter *)

Module Process.

Definition event_eqb (a b : ProcessEvent) : bool :=
  match a, b with
  | uncaughtException, uncaughtException => true
  | unhandledRejection, unhandledRejection => true
  | exit, exit => true
  | OnSignal s, OnSignal s' => String.eqb s s'
  | _, _ => false
  end.

Definition listener_eqb (a b : Listener) : bool :=
  match a, b with
  | ProcessErrorsFn, ProcessErrorsFn => true
  | ProcessSignalFn s, ProcessSignalFn s' => String.eqb s s'
  | OnExitFn, OnExitFn => true
  | ForeignFn i, ForeignFn j => Nat.eqb i j
  | _, _ => false
  end.

Definition entry_eqb (a b : ProcessEvent * Listener) : bool :=
  event_eqb (fst a) (fst b) && listener_eqb (snd a) (snd b).

Definition Table := list (ProcessEvent * Listener).

(** [process.on(ev, l)] appends. *)
Definition on (ev : ProcessEvent) (l : Listener) (t : Table) : Table :=
  t ++ [(ev, l)].

(** [process.off(ev, l)] removes the most recently added instance, if any. *)
Fixpoint off (ev : ProcessEvent) (l : Listener) (t : Table) : Table :=
  match t with
  | [] => []
  | x :: rest =>
      if entry_eqb (ev, l) x && negb (existsb (entry_eqb (ev, l)) rest)
      then rest
      else x :: off ev l rest
  end.

(** [process.removeAllListeners(ev)]. *)
Definition removeAllListeners (ev : ProcessEvent) (t : Table) : Table :=
  filter (fun x => negb (event_eqb (fst x) ev)) t.

(** The listeners [process.emit(ev, ...)] calls, in order. *)
Definition listenersOf (ev : ProcessEvent) (t : Table) : list Listener :=
  map snd (filter (fun x => event_eqb (fst x) ev) t).

End Process.

(** ** The class *)

Definition defaultSignals : list Signals := ["SIGINT"; "SIGTERM"; "SIGABRT"; "SIGUSR2"].

(** [a ?? b] *)
Definition nullish {A : Type} (a : option A) (b : A) : A :=
  match a with
  | Some x => x
  | None => b
  end.

(** [#bind(on)] *)
Definition bind (on : bool) (sm : ShutdownManager) (t : Process.Table) : Process.Table :=
  let onOff := if on then Process.on else Process.off in
  let t1 := onOff uncaughtException ProcessErrorsFn t in
  let t2 := onOff unhandledRejection ProcessErrorsFn t1 in
  let t3 :=
    fold_left
      (fun acc s =>
         if on then Process.on (OnSignal s) (ProcessSignalFn s) acc
         else Process.removeAllListeners (OnSignal s) acc)
      (signals sm) t2 in
  onOff exit OnExitFn t3.

(** [new ShutdownManager(options)], in a process whose emitter holds [t] at
    time [now]; [h] is the identity of the fresh abort signal. *)
Definition construct (options : option ShutdownManagerArgs) (h : nat)
    (t : Process.Table) (now : Z) : World :=
  let sm :=
    {| handlers := [];
       signals := nullish (match options with Some o => opt_signals o | None => None end)
                          defaultSignals;
       shuttingDown := false;
       abortController := {| handle := h; aborted := false |};
       log := match options with Some o => opt_log o | None => false end;
       perHookTimeout :=
         nullish (match options with Some o => opt_perHookTimeout o | None => None end) 5000;
       shutdownTimeout :=
         nullish (match options with Some o => opt_shutdownTimeout o | None => None end) 10000 |} in
  {| this := sm; listeners := bind true sm t; suspended := None; clock := now |}.

(** [get abortSignal()] *)
Definition abortSignal (w : World) : AbortSignal := abortController (this w).

(** [get hooksSize()] *)
Definition hooksSize (w : World) : nat := List.length (handlers (this w)).

(** [addHook(name, handler)] *)
Definition addHook (w : World) (n : string) (h : ShutdownHookHandler) : World * list Effect :=
  let sm := this w in
  (with_this w (set_handlers sm (handlers sm ++ [{| name := n; handler := h |}])),
   say sm (Registered n)).

(** [disconnect()] *)
Definition disconnect (w : World) : World :=
  with_listeners w (bind false (this w) (listeners w)).

(** [#onExit(code)] *)
Definition onExit (w : World) (code : Z) : list Effect :=
  say (this w) (Exiting code).

(** [process.exit(code)]: the exit is recorded and the listeners of the
    [exit] event are called.  The model goes on after it, as the process
    does when the function is replaced by one that returns. *)
Definition process_exit (w : World) (code : Z) : list Effect :=
  Exit code ::
  flat_map (fun l => match l with OnExitFn => onExit w code | _ => [] end)
           (Process.listenersOf exit (listeners w)).

(** [AbortController.prototype.abort()]: the event fires on the first call only. *)
Definition abort (a : AbortSignal) : AbortSignal * list Effect :=
  if aborted a then (a, [])
  else ({| handle := handle a; aborted := true |}, [AbortEvent]).

(** [Promise.race([handler(), timers.setTimeout(perHookTimeout, "timeout"),
    globalTimeout])] built at time [now]: the instant at which it settles and
    its completion.  Entries already settled when the race is built win in
    array order.  Otherwise the entry that settles first wins, and of entries
    due at the same instant the one armed first settles first: the shared
    timer, armed when the trigger was accepted, comes before the handler's
    promise, which comes before the per-hook timer, armed after the handler
    has been called.  Instants are nominal: what is compared is the order in
    which the entries settle, a timer of the runtime fires at or after its
    instant. *)
Definition race (now : Z) (h : ShutdownHookHandler) (perHook global : Z) : Z * Completion :=
  let completion o :=
    match o with
    | Fulfils => Normal Undefined
    | Rejects reason => Thrown reason
    end in
  let timers :=
    if global <=? now then (now, Normal (Str "global-timeout"))
    else if perHook <? global then (perHook, Normal (Str "timeout"))
    else (global, Normal (Str "global-timeout")) in
  match h with
  | Throws e => (now, Thrown e)
  | Immediate o => (now, completion o)
  | After d o =>
      let settles := now + Z.max 0 d in
      if (settles <=? perHook) && (settles <? global)
      then (settles, completion o)
      else timers
  | Never => timers
  end.

(** The rest of the loop body once the awaited race has completed with [c]:
    the three branches of the [try] block and the [catch] block. *)
Definition afterRace (sm : ShutdownManager) (h : ShutdownHook) (c : Completion)
    (f : Frame) : Frame * list Effect :=
  match c with
  | Normal response =>
      if strictEqualsString response "timeout"
      then (set_withError f true, say sm (TimedOut (name h)))
      else if strictEqualsString response "global-timeout"
      then (set_forceExit f true, [])
      else (f, say sm (Successful (name h)))
  | Thrown error =>
      (set_withError f true, say sm (Unsuccessful (name h) error))
  end.

(** Where the loop stands when control leaves it. *)
Inductive LoopState : Type :=
| Pending (f : Frame)       (* suspended at [await] *)
| Finished (f : Frame).     (* the iterator is exhausted *)

(** [for (const { name, handler } of this.#handlers)] from the iterator's
    position on, over the elements [rest] still ahead, up to the next [await].
    A handler that throws is caught without suspending; as it leaves the
    registry as it was, the elements ahead are still [rest] when the loop
    goes on. *)
Fixpoint forOf (sm : ShutdownManager) (rest : list ShutdownHook) (f : Frame)
    : LoopState * list Effect :=
  match rest with
  | [] => (Finished f, [])
  | h :: rest' =>
      let pre := say sm (ProcessingHook (name h)) ++ [Call h] in
      match handler h with
      | Throws e =>
          let '(f', effs) := afterRace sm h (Thrown e) f in
          let '(st, effs') := forOf sm rest' (next f') in
          (st, pre ++ Settled h (Thrown e) :: effs ++ effs')
      | _ => (Pending f, pre)
      end
  end.

(** The statements after the loop. *)
Definition finish (w : World) (f : Frame) : World * list Effect :=
  let sm := this w in
  (with_suspended w None,
   say sm (Completed (signal f))
   ++ (if withError f then say sm NotGraceful else [])
   ++ (if forceExit f then say sm GlobalReached else [])
   ++ process_exit w (if withError f || forceExit f then 1 else 0)).

(** Run the loop from the frame's iterator position over the array as it is now. *)
Definition runLoop (w : World) (f : Frame) : World * list Effect :=
  let '(st, effs) := forOf (this w) (skipn (index f) (handlers (this w))) f in
  match st with
  | Pending f' => (with_suspended w (Some f'), effs)
  | Finished f' =>
      let '(w', effs') := finish w f' in (w', effs ++ effs')
  end.

(** [#processSignal(signal)], up to its first [await] or to its end. *)
Definition processSignal (w : World) (s : Signals) : World * list Effect :=
  let sm := this w in
  if shuttingDown sm then (w, say sm (Ignoring s))
  else
    let sm1 := set_shuttingDown sm true in
    let '(a, fired) := abort (abortController sm1) in
    let sm2 := set_abortController sm1 a in
    let f := {| signal := s; index := 0%nat; withError := false; forceExit := false;
                globalTimeout := Timers.setTimeout (clock w) (shutdownTimeout sm2) |} in
    let '(w', effs) := runLoop (with_this w sm2) f in
    (w', say sm (ProcessingSignal s) ++ fired ++ effs).

(** [#processErrors(error)] *)
Definition processErrors (w : World) (e : Value) : World * list Effect :=
  let '(w', effs) := processSignal w "SIGUSR2" in
  (w', say (this w) (Uncaught e) ++ effs).

(** The event loop resumes the suspended [#processSignal]: the awaited race
    settles, the loop body completes and the loop goes on. *)
Definition resume (w : World) : World * list Effect :=
  match suspended w with
  | None => (w, [])
  | Some f =>
      match nth_error (handlers (this w)) (index f) with
      | None => (w, [])
      | Some h =>
          let '(t, c) :=
            race (clock w) (handler h)
                 (Timers.setTimeout (clock w) (perHookTimeout (this w)))
                 (globalTimeout f) in
          let '(f', effs) := afterRace (this w) h c f in
          let '(w', effs') := runLoop (with_clock w t) (next f') in
          (w', Settled h c :: effs ++ effs')
      end
  end.

(** ** Inputs *)

Inductive Emission : Type :=
| EmitSignal (s : Signals)
| EmitUncaughtException (e : Value)
| EmitUnhandledRejection (reason : Value)
| EmitExit (code : Z).

Definition eventOf (em : Emission) : ProcessEvent :=
  match em with
  | EmitSignal s => OnSignal s
  | EmitUncaughtException _ => uncaughtException
  | EmitUnhandledRejection _ => unhandledRejection
  | EmitExit _ => exit
  end.

(** One listener is called with the emitted arguments. *)
Definition callListener (w : World) (l : Listener) (em : Emission) : World * list Effect :=
  match l, em with
  | ProcessErrorsFn, EmitUncaughtException e => processErrors w e
  | ProcessErrorsFn, EmitUnhandledRejection e => processErrors w e
  | ProcessSignalFn s, _ => processSignal w s
  | OnExitFn, EmitExit code => (w, onExit w code)
  | _, _ => (w, [])
  end.

Fixpoint callAll (w : World) (ls : list Listener) (em : Emission) : World * list Effect :=
  match ls with
  | [] => (w, [])
  | l :: ls' =>
      let '(w1, e1) := callListener w l em in
      let '(w2, e2) := callAll w1 ls' em in
      (w2, e1 ++ e2)
  end.

(** [process.emit(...)]: the listeners registered at that moment are called in order. *)
Definition emit (w : World) (em : Emission) : World * list Effect :=
  callAll w (Process.listenersOf (eventOf em) (listeners w)) em.

(** What can happen to a coordinator: calls of its public methods, events of
    the process, and the event loop resuming its suspended shutdown sequence.
    The inputs that precede a [Resume] are the calls made while the sequence
    was suspended, in the order in which they were made. *)
Inductive Input : Type :=
| AddHook (n : string) (h : ShutdownHookHandler)
| Disconnect
| Emit (em : Emission)
| Resume.

Definition step (w : World) (i : Input) : World * list Effect :=
  match i with
  | AddHook n h => addHook w n h
  | Disconnect => (disconnect w, [])
  | Emit em => emit w em
  | Resume => resume w
  end.

Fixpoint exec (w : World) (ins : list Input) : World * list Effect :=
  match ins with
  | [] => (w, [])
  | i :: rest =>
      let '(w1, e1) := step w i in
      let '(w2, e2) := exec w1 rest in
      (w2, e1 ++ e2)
  end.

(** ** Reading a trace *)

Definition logCalls (tr : list Effect) : list LogCall :=
  flat_map (fun e => match e with Log l => [render l] | _ => [] end) tr.

Definition callsOf (tr : list Effect) : list ShutdownHook :=
  flat_map (fun e => match e with Call h => [h] | _ => [] end) tr.

Definition settlementsOf (tr : list Effect) : list (ShutdownHook * Completion) :=
  flat_map (fun e => match e with Settled h c => [(h, c)] | _ => [] end) tr.

Definition exitsOf (tr : list Effect) : list Z :=
  flat_map (fun e => match e with Exit c => [c] | _ => [] end) tr.

Definition abortsOf (tr : list Effect) : list Effect :=
  flat_map (fun e => match e with AbortEvent => [AbortEvent] | _ => [] end) tr.

(** The two warnings that may follow the loop. *)
Definition warningsOf (tr : list Effect) : list LogLine :=
  flat_map (fun e => match e with
                     | Log NotGraceful => [NotGraceful]
                     | Log GlobalReached => [GlobalReached]
                     | _ => []
                     end) tr.

(** A hook failed or timed out: the completions after which the loop body
    sets [withError]. *)
Definition isFailure (c : Completion) : bool :=
  match c with
  | Normal response => strictEqualsString response "timeout"
  | Thrown _ => true
  end.

(** The global deadline was reached: the completion after which the loop
    body sets [forceExit]. *)
Definition isGlobal (c : Completion) : bool :=
  match c with
  | Normal response => strictEqualsString response "global-timeout"
  | Thrown _ => false
  end.

(** The status a run must exit with, given the completions of its hooks. *)
Definition statusOf (cs : list Completion) : Z :=
  if existsb isFailure cs || existsb isGlobal cs then 1 else 0.

(** The effects that belong to the shutdown sequence itself, as opposed to
    the lines logged by [addHook], by ignored triggers, by [#processErrors]
    and by [#onExit]. *)
Definition isRunEffect (e : Effect) : bool :=
  match e with
  | Log (Registered _) | Log (Ignoring _) | Log (Uncaught _) | Log (Exiting _) => false
  | _ => true
  end.

Definition runPart (tr : list Effect) : list Effect := filter isRunEffect tr.

(** The line the loop body logs for a completion. *)
Definition report (logger : bool) (h : ShutdownHook) (c : Completion) : list Effect :=
  match c with
  | Normal response =>
      if strictEqualsString response "timeout" then emitLog logger (TimedOut (name h))
      else if strictEqualsString response "global-timeout" then []
      else emitLog logger (Successful (name h))
  | Thrown e => emitLog logger (Unsuccessful (name h) e)
  end.

(** The shape of a run's own trace. *)
Definition prologue (logger : bool) (s : Signals) : list Effect :=
  emitLog logger (ProcessingSignal s) ++ [AbortEvent].

Definition started (logger : bool) (h : ShutdownHook) : list Effect :=
  emitLog logger (ProcessingHook (name h)) ++ [Call h].

Definition block (logger : bool) (hc : ShutdownHook * Completion) : list Effect :=
  started logger (fst hc) ++ Settled (fst hc) (snd hc) :: report logger (fst hc) (snd hc).

Definition epilogue (logger : bool) (s : Signals) (cs : list Completion) : list Effect :=
  emitLog logger (Completed s)
  ++ (if existsb isFailure cs then emitLog logger NotGraceful else [])
  ++ (if existsb isGlobal cs then emitLog logger GlobalReached else [])
  ++ [Exit (statusOf cs)].

(** ** The vocabulary of the statements

    Relations between frames and worlds, the phases of a coordinator, the
    properties of traces the claims speak of, and the sample runs used to
    instantiate the theorems. *)

(** How a frame [f'] relates to the frame [f] it came from once the hooks
    [done] have been dealt with in between. *)
Definition FrameAfter (f f' : Frame) (done : list (ShutdownHook * Completion)) : Prop :=
  signal f' = signal f /\
  globalTimeout f' = globalTimeout f /\
  index f' = (index f + List.length done)%nat /\
  withError f' = withError f || existsb isFailure (map snd done) /\
  forceExit f' = forceExit f || existsb isGlobal (map snd done).

(** A shutdown sequence is suspended at the [await] of hook [h]: the hooks
    [done] before it have completed, in this order and with these completions. *)
Record Running (logger : bool) (w : World) (R : list Effect) (f : Frame)
    (done : list (ShutdownHook * Completion)) (h : ShutdownHook)
    (rest : list ShutdownHook) : Prop := {
  run_suspended : suspended w = Some f;
  run_latch : shuttingDown (this w) = true;
  run_aborted : aborted (abortController (this w)) = true;
  run_registry : handlers (this w) = map fst done ++ h :: rest;
  run_index : index f = List.length done;
  run_handler : forall e, handler h <> Throws e;
  run_withError : withError f = existsb isFailure (map snd done);
  run_forceExit : forceExit f = existsb isGlobal (map snd done);
  run_deadline : forceExit f = true -> globalTimeout f <= clock w;
  run_trace :
    R = prologue logger (signal f) ++ flat_map (block logger) done ++ started logger h
}.

Inductive Phase (logger : bool) (w : World) (R : list Effect) : Prop :=
| PhaseIdle :
    shuttingDown (this w) = false ->
    suspended w = None ->
    aborted (abortController (this w)) = false ->
    R = [] ->
    Phase logger w R
| PhaseRunning f done h rest :
    Running logger w R f done h rest ->
    Phase logger w R
| PhaseDone s done rest :
    suspended w = None ->
    shuttingDown (this w) = true ->
    aborted (abortController (this w)) = true ->
    handlers (this w) = map fst done ++ rest ->
    R = prologue logger s ++ flat_map (block logger) done
        ++ epilogue logger s (map snd done) ->
    Phase logger w R.

Definition Inv (logger : bool) (w : World) (tr : list Effect) : Prop :=
  log (this w) = logger /\ Phase logger w (runPart tr).

(** A coordinator that was constructed and then received the inputs [ins]. *)
Definition lifetime (options : option ShutdownManagerArgs) (h : nat)
    (t : Process.Table) (now : Z) (ins : list Input) : World * list Effect :=
  exec (construct options h t now) ins.

(** What the trace of a coordinator shows in each phase. *)
Record TraceFacts (logger : bool) (w : World) (tr : list Effect) : Prop := {
  facts_settled_prefix :
    exists rest, handlers (this w) = map fst (settlementsOf tr) ++ rest;
  facts_calls :
    callsOf tr =
    map fst (settlementsOf tr)
    ++ match suspended w with
       | Some f => firstn 1 (skipn (index f) (handlers (this w)))
       | None => []
       end;
  facts_index :
    forall f, suspended w = Some f ->
      index f = List.length (settlementsOf tr) /\
      withError f = existsb isFailure (map snd (settlementsOf tr)) /\
      forceExit f = existsb isGlobal (map snd (settlementsOf tr)) /\
      shuttingDown (this w) = true /\
      (forceExit f = true -> globalTimeout f <= clock w) /\
      exists h, nth_error (handlers (this w)) (index f) = Some h /\
                forall e, handler h <> Throws e;
  facts_exits :
    exitsOf tr =
    if shuttingDown (this w) && match suspended w with None => true | _ => false end
    then [statusOf (map snd (settlementsOf tr))] else [];
  facts_aborts :
    abortsOf tr = if shuttingDown (this w) then [AbortEvent] else [];
  facts_aborted :
    aborted (abortController (this w)) = shuttingDown (this w);
  facts_idle :
    shuttingDown (this w) = false -> suspended w = None /\ settlementsOf tr = [];
  facts_warnings :
    warningsOf tr =
    if shuttingDown (this w) && match suspended w with None => true | _ => false end
    then (if existsb isFailure (map snd (settlementsOf tr)) && logger
          then [NotGraceful] else [])
         ++ (if existsb isGlobal (map snd (settlementsOf tr)) && logger
             then [GlobalReached] else [])
    else []
}.

(** A coordinator constructed with a logger and otherwise default options. *)
Definition withLogger : option ShutdownManagerArgs :=
  Some {| opt_signals := None; opt_log := true;
          opt_perHookTimeout := None; opt_shutdownTimeout := None |}.

(** The fields of the class after some operations, compared with before:
    hooks are only appended, the configuration and the identity of the abort
    signal stay, and neither the latch nor the abort signal is ever reset. *)
Record Evolves (sm sm' : ShutdownManager) : Prop := {
  ev_handlers : exists added, handlers sm' = handlers sm ++ added;
  ev_signals : signals sm' = signals sm;
  ev_log : log sm' = log sm;
  ev_perHookTimeout : perHookTimeout sm' = perHookTimeout sm;
  ev_shutdownTimeout : shutdownTimeout sm' = shutdownTimeout sm;
  ev_handle : handle (abortController sm') = handle (abortController sm);
  ev_latch : shuttingDown sm = true -> shuttingDown sm' = true;
  ev_aborted : aborted (abortController sm) = true ->
               aborted (abortController sm') = true
}.

(** The first frame of a run. *)
Definition firstFrame (w : World) (s : Signals) : Frame :=
  {| signal := s; index := 0%nat; withError := false; forceExit := false;
     globalTimeout := Timers.setTimeout (clock w) (shutdownTimeout (this w)) |}.

(** The values the two timers fulfil with. *)
Definition globalMarker : Completion := Normal (Str "global-timeout").

Definition timeoutMarker : Completion := Normal (Str "timeout").





(** A run with one hook that never settles. *)
Definition hangOnly : list Input :=
  [AddHook "foo" Never; Emit (EmitSignal "SIGINT"); Resume].

(** The hooks that the calls of [addHook] among some inputs append. *)
Definition addedBy (ins : list Input) : list ShutdownHook :=
  flat_map (fun i => match i with
                     | AddHook n h => [{| name := n; handler := h |}]
                     | _ => []
                     end) ins.

(** At the end of the sequence every registered handler has been called. *)
Definition Exhaustive (w : World) (tr : list Effect) : Prop :=
  shuttingDown (this w) = true -> suspended w = None ->
  callsOf tr = handlers (this w).





(** A trace is sequential when no hook is announced and no handler is called
    while an earlier handler is in flight, that is, called and not yet done
    with its try block (its race has not resolved), and a try block completes
    only when a handler is in flight. *)
Fixpoint sequentialFrom (inFlight : bool) (tr : list Effect) : bool :=
  match tr with
  | [] => true
  | Log (ProcessingHook _) :: r => negb inFlight && sequentialFrom inFlight r
  | Call _ :: r => negb inFlight && sequentialFrom true r
  | Settled _ _ :: r => inFlight && sequentialFrom false r
  | _ :: r => sequentialFrom inFlight r
  end.

(** Whether a handler is in flight after the effects [tr]. *)
Fixpoint inFlightAfter (inFlight : bool) (tr : list Effect) : bool :=
  match tr with
  | [] => inFlight
  | Call _ :: r => inFlightAfter true r
  | Settled _ _ :: r => inFlightAfter false r
  | _ :: r => inFlightAfter inFlight r
  end.

(** The hook names of the processing lines, in the order logged. *)
Definition announcedOf (tr : list Effect) : list string :=
  flat_map (fun e => match e with Log (ProcessingHook n) => [n] | _ => [] end) tr.

(** The claim as the specification words it: a run that was started by
    [trigger] in the world [w0] and has ended after the inputs [rest] has
    called exactly the handlers registered in [w0]. *)
Definition executesSnapshot (w0 : World) (trigger : Input) (rest : list Input) : Prop :=
  shuttingDown (this w0) = false ->
  shuttingDown (this (fst (step w0 trigger))) = true ->
  suspended (fst (exec w0 (trigger :: rest))) = None ->
  callsOf (snd (exec w0 (trigger :: rest))) = handlers (this w0).

(** A hook that takes 100 ms is registered; a second hook is added while the
    run waits for it. *)
Definition slowHook : list Input := [AddHook "foo" (After 100 Fulfils)].

Definition lateHook : list Input :=
  [AddHook "late" (Immediate Fulfils); Resume; Resume].

(** No hook is announced, called or completed before the abort event. *)
Fixpoint abortPrecedesHooks (tr : list Effect) : bool :=
  match tr with
  | [] => true
  | AbortEvent :: _ => true
  | Log (ProcessingHook _) :: _ => false
  | Call _ :: _ => false
  | Settled _ _ :: _ => false
  | _ :: r => abortPrecedesHooks r
  end.

(** A listener of other code. *)
Definition isForeign (l : Listener) : bool :=
  match l with
  | ForeignFn _ => true
  | _ => false
  end.

(** A table that holds listeners of other code only. *)
Definition foreignOnly (t : Process.Table) : Prop :=
  Forall (fun x => isForeign (snd x) = true) t.

(** What the constructor subscribes, in order. *)
Definition subscriptions (sigs : list Signals) : Process.Table :=
  (uncaughtException, ProcessErrorsFn)
  :: (unhandledRejection, ProcessErrorsFn)
  :: map (fun s => (OnSignal s, ProcessSignalFn s)) sigs
  ++ [(exit, OnExitFn)].

(** The entries that survive [removeAllListeners] for every configured signal. *)
Definition keep (sigs : list Signals) (x : ProcessEvent * Listener) : bool :=
  forallb (fun s => negb (Process.event_eqb (fst x) (OnSignal s))) sigs.

(** The table of a coordinator constructed over the table [t]. *)
Definition TableInv (t : Process.Table) (sigs : list Signals) (ls : Process.Table) : Prop :=
  ls = t ++ subscriptions sigs \/ ls = filter (keep sigs) t.

(** One hook calls [Promise.reject()]. *)
Definition rejectNoReason : list Input :=
  [AddHook "foo" (Immediate (Rejects Undefined)); Emit (EmitSignal "SIGINT"); Resume].

(** ** The vocabulary of the further properties *)

(** Inputs among which [disconnect()] is never called. *)
Definition neverDisconnected (ins : list Input) : bool :=
  forallb (fun i => match i with Disconnect => false | _ => true end) ins.

(** The hook names of the registration lines, in the order logged. *)
Definition registeredOf (tr : list Effect) : list string :=
  flat_map (fun e => match e with Log (Registered n) => [n] | _ => [] end) tr.

(** The handler throws before returning. *)
Definition throwsSync (hk : ShutdownHook) : Prop := exists e, handler hk = Throws e.

(** The lines that [addHook] logs for some inputs. *)
Definition registrationLines (logger : bool) (ins : list Input) : list Effect :=
  flat_map (fun hk => emitLog logger (Registered (name hk))) (addedBy ins).

(** The codes of the lines of [#onExit]. *)
Definition exitLinesOf (tr : list Effect) : list Z :=
  flat_map (fun e => match e with Log (Exiting c) => [c] | _ => [] end) tr.

(** No [exit] event is emitted but by [process.exit] itself. *)
Definition noExitEvents (ins : list Input) : bool :=
  forallb (fun i => match i with Emit (EmitExit _) => false | _ => true end) ins.

(** The exit lines of a trace are those expected of its exits. *)
Definition ExitsLogged (logger : bool) (tr : list Effect) : Prop :=
  exitLinesOf tr = if logger then exitsOf tr else [].

(** * Proofs *)

(** ** Basic facts about the loop body *)

Lemma afterRace_effects sm h c f :
  snd (afterRace sm h c f) = report (log sm) h c.
Proof.
  unfold afterRace, report, say.
  destruct c as [r|e]; simpl; [|reflexivity].
  destruct (strictEqualsString r "timeout"); simpl; [reflexivity|].
  destruct (strictEqualsString r "global-timeout"); reflexivity.
Qed.

Lemma timeout_not_global r :
  strictEqualsString r "timeout" = true ->
  strictEqualsString r "global-timeout" = false.
Proof.
  destruct r; simpl; try discriminate.
  intros H. apply String.eqb_eq in H. subst. reflexivity.
Qed.

Lemma afterRace_frame sm h c f :
  let f' := fst (afterRace sm h c f) in
  signal f' = signal f /\ index f' = index f /\
  globalTimeout f' = globalTimeout f /\
  withError f' = withError f || isFailure c /\
  forceExit f' = forceExit f || isGlobal c.
Proof.
  unfold afterRace, isFailure, isGlobal.
  destruct c as [r|e]; simpl.
  - destruct (strictEqualsString r "timeout") eqn:Ht; simpl.
    + rewrite (timeout_not_global _ Ht).
      rewrite !orb_true_r, !orb_false_r. repeat split.
    + destruct (strictEqualsString r "global-timeout"); simpl;
        rewrite ?orb_true_r, ?orb_false_r; repeat split.
  - rewrite orb_true_r, orb_false_r. repeat split.
Qed.

Lemma forOf_cons sm h rest f :
  forOf sm (h :: rest) f =
  match handler h with
  | Throws e =>
      let '(f', effs) := afterRace sm h (Thrown e) f in
      let '(st, effs') := forOf sm rest (next f') in
      (st, (say sm (ProcessingHook (name h)) ++ [Call h])
           ++ Settled h (Thrown e) :: effs ++ effs')
  | _ => (Pending f, say sm (ProcessingHook (name h)) ++ [Call h])
  end.
Proof. reflexivity. Qed.

Lemma forOf_run sm rest :
  forall f st effs,
    forOf sm rest f = (st, effs) ->
    exists thrown,
      Forall (fun hc => isGlobal (snd hc) = false) thrown /\
      match st with
      | Pending f' =>
          exists h rest',
            rest = map fst thrown ++ h :: rest' /\
            (forall e, handler h <> Throws e) /\
            effs = flat_map (block (log sm)) thrown ++ started (log sm) h /\
            FrameAfter f f' thrown
      | Finished f' =>
          rest = map fst thrown /\
          effs = flat_map (block (log sm)) thrown /\
          FrameAfter f f' thrown
      end.
Proof.
  induction rest as [|h rest IH]; intros f st effs H.
  - simpl in H. inversion H; subst. exists []. split; [constructor|].
    simpl. unfold FrameAfter. simpl.
    rewrite Nat.add_0_r, !orb_false_r. repeat split.
  - rewrite forOf_cons in H. destruct (handler h) eqn:Hh.
    + destruct (afterRace sm h (Thrown e) f) as [f1 e1] eqn:Ha.
      destruct (forOf sm rest (next f1)) as [st1 e2] eqn:Hf.
      inversion H; subst; clear H.
      destruct (IH _ _ _ Hf) as [thrown [Hg Hst]].
      pose proof (afterRace_frame sm h (Thrown e) f) as Hfr.
      pose proof (afterRace_effects sm h (Thrown e) f) as Hef.
      rewrite Ha in Hfr, Hef. simpl in Hfr, Hef.
      destruct Hfr as (Hs & Hi & Hgt & Hw & Hfe).
      exists ((h, Thrown e) :: thrown). split; [constructor; [reflexivity|assumption]|].
      assert (Hblock : forall tl,
                 (say sm (ProcessingHook (name h)) ++ [Call h])
                 ++ Settled h (Thrown e) :: e1 ++ tl
                 = block (log sm) (h, Thrown e) ++ tl).
      { intros tl. unfold block, started, say. simpl. subst e1.
        rewrite <- !app_assoc. simpl. reflexivity. }
      destruct st as [f'|f']; cbv beta iota in Hst.
      * destruct Hst as (h' & rest' & Hr & Hn & He & Hfa).
        exists h', rest'. subst rest e2. simpl.
        split; [reflexivity|]. split; [assumption|].
        split.
        { rewrite Hblock. rewrite <- app_assoc. reflexivity. }
        unfold FrameAfter in *. simpl in *.
        destruct Hfa as (A & B & C & D & E).
        rewrite A, B, C, D, E, Hs, Hgt, Hi, Hw, Hfe.
        rewrite !orb_true_r, !orb_false_r. simpl.
        repeat split; lia.
      * destruct Hst as (Hr & He & Hfa).
        subst rest e2. simpl.
        split; [reflexivity|].
        split.
        { rewrite Hblock. reflexivity. }
        unfold FrameAfter in *. simpl in *.
        destruct Hfa as (A & B & C & D & E).
        rewrite A, B, C, D, E, Hs, Hgt, Hi, Hw, Hfe.
        rewrite !orb_true_r, !orb_false_r. simpl.
        repeat split; lia.
    + inversion H; subst. exists []. split; [constructor|].
      exists h, rest. simpl. repeat split; try (intros e; rewrite Hh; discriminate).
      all: unfold FrameAfter; simpl; rewrite ?Nat.add_0_r, ?orb_false_r; repeat split.
    + inversion H; subst. exists []. split; [constructor|].
      exists h, rest. simpl. repeat split; try (intros e; rewrite Hh; discriminate).
      all: unfold FrameAfter; simpl; rewrite ?Nat.add_0_r, ?orb_false_r; repeat split.
    + inversion H; subst. exists []. split; [constructor|].
      exists h, rest. simpl. repeat split; try (intros e; rewrite Hh; discriminate).
      all: unfold FrameAfter; simpl; rewrite ?Nat.add_0_r, ?orb_false_r; repeat split.
Qed.

(** ** The phases of a coordinator and the shape of its trace *)

Lemma forOf_finishes sm rest : forall f,
  Forall throwsSync rest ->
  exists f',
    fst (forOf sm rest f) = Finished f'
    /\ withError f' = (withError f || match rest with [] => false | _ => true end)
    /\ forceExit f' = forceExit f.
Proof.
  induction rest as [|hk rest IH]; intros f Hall.
  - exists f. simpl. rewrite orb_false_r. repeat split.
  - inversion Hall as [|? ? [e He] Hrest]; subst.
    rewrite forOf_cons, He. simpl.
    destruct (IH (next (set_withError f true)) Hrest) as (f' & Hf & Hw & Hfe).
    destruct (forOf sm rest (next (set_withError f true))) as [st effs].
    simpl in *. exists f'. split; [assumption|]. split.
    + rewrite Hw. simpl. rewrite orb_true_r. reflexivity.
    + rewrite Hfe. reflexivity.
Qed.

Lemma forOf_suspends sm rest : forall f,
  ~ Forall throwsSync rest -> exists f', fst (forOf sm rest f) = Pending f'.
Proof.
  induction rest as [|hk rest IH]; intros f Hn.
  - exfalso. apply Hn. constructor.
  - rewrite forOf_cons. destruct (handler hk) eqn:Hh;
      try (eexists; reflexivity).
    simpl.
    destruct (IH (next (set_withError f true))) as [f' Hf].
    + intros Hall. apply Hn. constructor; [exists e; assumption|assumption].
    + destruct (forOf sm rest (next (set_withError f true))) as [st effs].
      simpl in *. exists f'. assumption.
Qed.

Lemma runPart_app a b : runPart (a ++ b) = runPart a ++ runPart b.
Proof. apply filter_app. Qed.

Lemma runPart_id tr :
  Forall (fun e => isRunEffect e = true) tr -> runPart tr = tr.
Proof.
  induction 1 as [|e tr He _ IH]; simpl; [reflexivity|].
  rewrite He, IH. reflexivity.
Qed.

Lemma emitLog_run logger l :
  isRunEffect (Log l) = true ->
  Forall (fun e => isRunEffect e = true) (emitLog logger l).
Proof. intros H. destruct logger; simpl; auto. Qed.

Lemma emitLog_not_run logger l :
  isRunEffect (Log l) = false -> runPart (emitLog logger l) = [].
Proof.
  intros H. destruct logger; [|reflexivity].
  unfold emitLog, runPart. cbn [filter]. rewrite H. reflexivity.
Qed.

Lemma started_run logger h :
  Forall (fun e => isRunEffect e = true) (started logger h).
Proof.
  unfold started. apply Forall_app. split.
  - apply emitLog_run. reflexivity.
  - repeat constructor.
Qed.

Lemma report_run logger h c :
  Forall (fun e => isRunEffect e = true) (report logger h c).
Proof.
  unfold report. destruct c as [r|e].
  - destruct (strictEqualsString r "timeout"); [apply emitLog_run; reflexivity|].
    destruct (strictEqualsString r "global-timeout"); [constructor|].
    apply emitLog_run; reflexivity.
  - apply emitLog_run; reflexivity.
Qed.

Lemma block_run logger hc :
  Forall (fun e => isRunEffect e = true) (block logger hc).
Proof.
  unfold block. apply Forall_app. split; [apply started_run|].
  constructor; [reflexivity|apply report_run].
Qed.

Lemma blocks_run logger done :
  Forall (fun e => isRunEffect e = true) (flat_map (block logger) done).
Proof.
  induction done as [|hc done IH]; simpl; [constructor|].
  apply Forall_app. split; [apply block_run|assumption].
Qed.

Lemma prologue_run logger s :
  Forall (fun e => isRunEffect e = true) (prologue logger s).
Proof.
  unfold prologue. apply Forall_app. split.
  - apply emitLog_run; reflexivity.
  - repeat constructor.
Qed.

Lemma epilogue_run logger s cs :
  Forall (fun e => isRunEffect e = true) (epilogue logger s cs).
Proof.
  unfold epilogue. repeat (apply Forall_app; split).
  - apply emitLog_run; reflexivity.
  - destruct (existsb isFailure cs); [apply emitLog_run; reflexivity|constructor].
  - destruct (existsb isGlobal cs); [apply emitLog_run; reflexivity|constructor].
  - repeat constructor.
Qed.

Lemma runPart_process_exit w code : runPart (process_exit w code) = [Exit code].
Proof.
  unfold process_exit. simpl. f_equal.
  induction (Process.listenersOf exit (listeners w)) as [|l ls IH]; simpl; [reflexivity|].
  rewrite runPart_app, IH, app_nil_r.
  destruct l; try reflexivity.
  unfold onExit, say. apply emitLog_not_run. reflexivity.
Qed.

Lemma not_global_existsb (l : list (ShutdownHook * Completion)) :
  Forall (fun hc => isGlobal (snd hc) = false) l ->
  existsb isGlobal (map snd l) = false.
Proof.
  induction 1 as [|hc l H _ IH]; simpl; [reflexivity|].
  rewrite H, IH. reflexivity.
Qed.

Section Phases.

Variable logger : bool.

Lemma runLoop_frame w f w' effs :
  runLoop w f = (w', effs) ->
  this w' = this w /\ listeners w' = listeners w /\ clock w' = clock w.
Proof.
  unfold runLoop.
  destruct (forOf (this w) (skipn (index f) (handlers (this w))) f) as [[f'|f'] e1].
  - intros H; inversion H; subst w' effs. simpl. repeat split.
  - unfold finish. intros H; inversion H; subst w' effs. simpl. repeat split.
Qed.

Lemma runLoop_phase w f done rest0 w' effs :
  log (this w) = logger ->
  shuttingDown (this w) = true ->
  aborted (abortController (this w)) = true ->
  handlers (this w) = map fst done ++ rest0 ->
  index f = List.length done ->
  withError f = existsb isFailure (map snd done) ->
  forceExit f = existsb isGlobal (map snd done) ->
  (forceExit f = true -> globalTimeout f <= clock w) ->
  runLoop w f = (w', effs) ->
  Phase logger w' (prologue logger (signal f) ++ flat_map (block logger) done ++ runPart effs).
Proof.
  intros Hlog Hlatch Hab Hreg Hidx Hwe Hfe Hdl Hrun.
  unfold runLoop in Hrun. rewrite Hreg, Hidx in Hrun.
  replace (skipn (List.length done) (map fst done ++ rest0)) with rest0 in Hrun.
  2:{ rewrite skipn_app, length_map, Nat.sub_diag. simpl.
      rewrite skipn_all2; [reflexivity|]. rewrite length_map. lia. }
  destruct (forOf (this w) rest0 f) as [st e1] eqn:Hfor.
  destruct (forOf_run _ _ _ _ _ Hfor) as [thrown [Hng Hst]].
  rewrite Hlog in Hst.
  pose proof (not_global_existsb _ Hng) as Hng'.
  destruct st as [f'|f']; cbv beta iota in Hst.
  - destruct Hst as (h & rest' & Hr & Hn & He & Hfa).
    inversion Hrun; subst w' effs; clear Hrun.
    destruct Hfa as (A & B & C & D & E).
    apply PhaseRunning with (f := f') (done := done ++ thrown) (h := h) (rest := rest').
    constructor; simpl; try assumption.
    + reflexivity.
    + rewrite Hreg, Hr, map_app, <- app_assoc. reflexivity.
    + rewrite C, Hidx, length_app. reflexivity.
    + rewrite D, Hwe, map_app, existsb_app. reflexivity.
    + rewrite E, Hfe, map_app, existsb_app. reflexivity.
    + rewrite E, Hng', orb_false_r, B. assumption.
    + rewrite A, He, runPart_id.
      * rewrite flat_map_app, <- !app_assoc. reflexivity.
      * apply Forall_app. split; [apply blocks_run|apply started_run].
  - destruct Hst as (Hr & He & Hfa).
    unfold finish in Hrun. inversion Hrun; subst w' effs; clear Hrun.
    destruct Hfa as (A & B & C & D & E).
    apply PhaseDone with (s := signal f) (done := done ++ thrown) (rest := []);
      simpl; try assumption; try reflexivity.
    + rewrite Hreg, Hr, map_app, app_nil_r. reflexivity.
    + rewrite !runPart_app, runPart_process_exit.
      unfold say. rewrite Hlog.
      assert (Hw : withError f' = existsb isFailure (map snd (done ++ thrown))).
      { rewrite D, Hwe, map_app, existsb_app. reflexivity. }
      assert (Hf : forceExit f' = existsb isGlobal (map snd (done ++ thrown))).
      { rewrite E, Hfe, map_app, existsb_app. reflexivity. }
      rewrite Hw, Hf, A, He.
      rewrite (runPart_id (flat_map _ thrown)) by apply blocks_run.
      rewrite flat_map_app, <- !app_assoc.
      do 3 f_equal. unfold epilogue, statusOf.
      rewrite (runPart_id (emitLog _ (Completed _))) by (apply emitLog_run; reflexivity).
      f_equal.
      destruct (existsb isFailure (map snd (done ++ thrown)));
        destruct (existsb isGlobal (map snd (done ++ thrown))); simpl;
        rewrite ?(runPart_id (emitLog _ NotGraceful)) by (apply emitLog_run; reflexivity);
        rewrite ?(runPart_id (emitLog _ GlobalReached)) by (apply emitLog_run; reflexivity);
        reflexivity.
Qed.

(** *** The timers *)

Lemma effectiveDelay_pos ms : 1 <= Timers.effectiveDelay ms.
Proof.
  unfold Timers.effectiveDelay.
  destruct (1 <=? ms) eqn:H1; simpl; [|lia].
  destruct (ms <=? Timers.TIMEOUT_MAX); [apply Z.leb_le in H1; lia|lia].
Qed.

Lemma setTimeout_later now ms : now < Timers.setTimeout now ms.
Proof. unfold Timers.setTimeout. pose proof (effectiveDelay_pos ms). lia. Qed.

Lemma race_monotone now h perHook global :
  now <= perHook -> now <= fst (race now h perHook global).
Proof.
  intros Hp. unfold race.
  assert (Ht : now <= fst (if global <=? now then (now, Normal (Str "global-timeout"))
                           else if perHook <? global then (perHook, Normal (Str "timeout"))
                           else (global, Normal (Str "global-timeout")))).
  { destruct (global <=? now) eqn:Hg; simpl; [lia|].
    apply Z.leb_gt in Hg. destruct (perHook <? global); simpl; lia. }
  destruct h as [e|o|d o|]; simpl; try lia; try exact Ht.
  destruct ((now + Z.max 0 d <=? perHook) && (now + Z.max 0 d <? global));
    simpl; [lia|exact Ht].
Qed.

Lemma race_global now h perHook global :
  isGlobal (snd (race now h perHook global)) = true ->
  global <= fst (race now h perHook global).
Proof.
  unfold race.
  assert (Ht : forall x,
             x = (if global <=? now then (now, Normal (Str "global-timeout"))
                  else if perHook <? global then (perHook, Normal (Str "timeout"))
                  else (global, Normal (Str "global-timeout"))) ->
             isGlobal (snd x) = true -> global <= fst x).
  { intros x ->. destruct (global <=? now) eqn:Hg; simpl.
    - apply Z.leb_le in Hg. lia.
    - destruct (perHook <? global); simpl; [discriminate|lia]. }
  destruct h as [e|o|d o|]; simpl.
  - discriminate.
  - destruct o; discriminate.
  - destruct ((now + Z.max 0 d <=? perHook) && (now + Z.max 0 d <? global)); simpl.
    + destruct o; discriminate.
    + apply Ht. reflexivity.
  - apply Ht. reflexivity.
Qed.

(** *** Every operation keeps the invariant *)

Lemma addHook_inv w tr n h w' effs :
  Inv logger w tr -> addHook w n h = (w', effs) -> Inv logger w' (tr ++ effs).
Proof.
  intros [Hlog Hph] H. unfold addHook in H. inversion H; subst w' effs; clear H.
  split; [exact Hlog|].
  rewrite runPart_app. unfold say.
  rewrite (emitLog_not_run _ (Registered n)) by reflexivity. rewrite app_nil_r.
  destruct Hph as [A B C D | f done h0 rest Hr | s done rest A B C D E].
  - apply PhaseIdle; assumption.
  - destruct Hr.
    apply PhaseRunning with (f := f) (done := done) (h := h0)
                            (rest := rest ++ [{| name := n; handler := h |}]).
    constructor; simpl; try assumption.
    rewrite run_registry0, <- app_assoc. reflexivity.
  - apply PhaseDone with (s := s) (done := done)
                         (rest := rest ++ [{| name := n; handler := h |}]);
      simpl; try assumption.
    rewrite D, <- app_assoc. reflexivity.
Qed.

Lemma with_listeners_inv w tr ls :
  Inv logger w tr -> Inv logger (with_listeners w ls) tr.
Proof.
  intros [Hlog Hph]. split; [exact Hlog|].
  destruct Hph as [A B C D | f done h0 rest Hr | s done rest A B C D E].
  - apply PhaseIdle; assumption.
  - destruct Hr. eapply PhaseRunning. constructor; simpl; eassumption.
  - eapply PhaseDone; simpl; eassumption.
Qed.

Lemma processSignal_inv w tr s w' effs :
  Inv logger w tr -> processSignal w s = (w', effs) -> Inv logger w' (tr ++ effs).
Proof.
  intros [Hlog Hph] H. unfold processSignal in H.
  destruct (shuttingDown (this w)) eqn:Hsd.
  - inversion H; subst w' effs; clear H. split; [exact Hlog|].
    rewrite runPart_app. unfold say.
    rewrite (emitLog_not_run _ (Ignoring s)) by reflexivity.
    rewrite app_nil_r. exact Hph.
  - destruct Hph as [A B C D | f done h0 rest Hr | s0 done rest A B C D E];
      [|destruct Hr; congruence|congruence].
    unfold abort in H. simpl in H. rewrite C in H.
    match type of H with
    | context [runLoop ?W ?F] => destruct (runLoop W F) as [w1 e1] eqn:Hrun
    end.
    inversion H; subst w' effs; clear H.
    pose proof (runLoop_frame _ _ _ _ Hrun) as (Hthis & _ & _).
    split; [rewrite Hthis; exact Hlog|].
    eapply runLoop_phase with (done := []) in Hrun; simpl; try reflexivity.
    + simpl in Hrun. rewrite !runPart_app, D. simpl.
      unfold say. rewrite Hlog.
      rewrite (runPart_id (emitLog _ (ProcessingSignal s)))
        by (apply emitLog_run; reflexivity).
      unfold prologue in Hrun. rewrite <- app_assoc in Hrun. exact Hrun.
    + exact Hlog.
    + discriminate.
Qed.

Lemma processErrors_inv w tr e w' effs :
  Inv logger w tr -> processErrors w e = (w', effs) -> Inv logger w' (tr ++ effs).
Proof.
  intros HI H. unfold processErrors in H.
  destruct (processSignal w "SIGUSR2") as [w1 e1] eqn:Hps.
  inversion H; subst w' effs; clear H.
  pose proof (processSignal_inv _ _ _ _ _ HI Hps) as [Hlog Hph].
  split; [exact Hlog|].
  rewrite !runPart_app in *. unfold say.
  rewrite (emitLog_not_run _ (Uncaught e)) by reflexivity. exact Hph.
Qed.

Lemma onExit_inv w tr code : Inv logger w tr -> Inv logger w (tr ++ onExit w code).
Proof.
  intros [Hlog Hph]. split; [exact Hlog|].
  rewrite runPart_app. unfold onExit, say.
  rewrite (emitLog_not_run _ (Exiting code)) by reflexivity.
  rewrite app_nil_r. exact Hph.
Qed.

Lemma nth_error_middle {A : Type} (a : list A) (x : A) (b : list A) :
  nth_error (a ++ x :: b) (List.length a) = Some x.
Proof. rewrite nth_error_app2, Nat.sub_diag; [reflexivity|lia]. Qed.

Lemma resume_inv w tr w' effs :
  Inv logger w tr -> resume w = (w', effs) -> Inv logger w' (tr ++ effs).
Proof.
  intros [Hlog Hph] H. unfold resume in H.
  destruct (suspended w) as [f|] eqn:Hsus.
  2:{ inversion H; subst w' effs. rewrite app_nil_r. split; assumption. }
  destruct Hph as [A B C D | f0 done h rest Hr | s0 done rest A B C D E];
    [congruence| |congruence].
  destruct Hr. rewrite Hsus in run_suspended0.
  inversion run_suspended0; subst f0; clear run_suspended0.
  rewrite run_registry0, run_index0, <- (length_map fst done), nth_error_middle in H.
  destruct (race (clock w) (handler h)
                 (Timers.setTimeout (clock w) (perHookTimeout (this w)))
                 (globalTimeout f)) as [t c] eqn:Hrace.
  destruct (afterRace (this w) h c f) as [f1 e1] eqn:Haft.
  destruct (runLoop (with_clock w t) (next f1)) as [w1 e2] eqn:Hrun.
  inversion H; subst w' effs; clear H.
  pose proof (afterRace_frame (this w) h c f) as Hfr.
  pose proof (afterRace_effects (this w) h c f) as Hef.
  rewrite Haft in Hfr, Hef. simpl in Hfr, Hef.
  destruct Hfr as (Hs & Hi & Hgt & Hw & Hfe).
  pose proof (runLoop_frame _ _ _ _ Hrun) as (Hthis & _ & _).
  split; [rewrite Hthis; exact Hlog|].
  eapply runLoop_phase with (done := done ++ [(h, c)]) (rest0 := rest) in Hrun;
    simpl; try assumption.
  - simpl in Hrun. rewrite Hs in Hrun.
    rewrite runPart_app, run_trace0. simpl.
    rewrite runPart_app, Hef, Hlog.
    rewrite (runPart_id (report _ _ _)) by apply report_run.
    rewrite flat_map_app in Hrun. simpl in Hrun. rewrite app_nil_r in Hrun.
    unfold block in Hrun at 2. simpl in Hrun.
    rewrite <- !app_assoc in *. simpl in *. exact Hrun.
  - rewrite run_registry0, map_app, <- app_assoc. reflexivity.
  - rewrite Hi, run_index0, length_app. simpl. lia.
  - rewrite Hw, run_withError0, map_app, existsb_app. simpl.
    rewrite orb_false_r. reflexivity.
  - rewrite Hfe, run_forceExit0, map_app, existsb_app. simpl.
    rewrite orb_false_r. reflexivity.
  - rewrite Hfe, Hgt. intros Hor.
    pose proof (race_monotone (clock w) (handler h)
                  (Timers.setTimeout (clock w) (perHookTimeout (this w)))
                  (globalTimeout f)) as Hmono.
    pose proof (race_global (clock w) (handler h)
                  (Timers.setTimeout (clock w) (perHookTimeout (this w)))
                  (globalTimeout f)) as Hglob.
    rewrite Hrace in Hmono, Hglob. simpl in Hmono, Hglob.
    pose proof (setTimeout_later (clock w) (perHookTimeout (this w))).
    apply orb_true_iff in Hor. destruct Hor as [Hor|Hor].
    + specialize (run_deadline0 Hor). lia.
    + apply Hglob. exact Hor.
Qed.

Lemma callListener_inv w tr l em w' effs :
  Inv logger w tr -> callListener w l em = (w', effs) -> Inv logger w' (tr ++ effs).
Proof.
  intros HI H. unfold callListener in H.
  destruct l; destruct em;
    try (inversion H; subst w' effs; rewrite app_nil_r; exact HI);
    try (eapply processErrors_inv; eassumption);
    try (eapply processSignal_inv; eassumption).
  inversion H; subst w' effs. apply onExit_inv. exact HI.
Qed.

Lemma callAll_inv ls : forall w tr em w' effs,
  Inv logger w tr -> callAll w ls em = (w', effs) -> Inv logger w' (tr ++ effs).
Proof.
  induction ls as [|l ls IH]; intros w tr em w' effs HI H; simpl in H.
  - inversion H; subst w' effs. rewrite app_nil_r. exact HI.
  - destruct (callListener w l em) as [w1 e1] eqn:H1.
    destruct (callAll w1 ls em) as [w2 e2] eqn:H2.
    inversion H; subst w' effs. rewrite app_assoc.
    eapply IH; [|eassumption]. eapply callListener_inv; eassumption.
Qed.

Lemma step_inv w tr i w' effs :
  Inv logger w tr -> step w i = (w', effs) -> Inv logger w' (tr ++ effs).
Proof.
  intros HI H. destruct i; simpl in H.
  - eapply addHook_inv; eassumption.
  - inversion H; subst w' effs. rewrite app_nil_r. apply with_listeners_inv. exact HI.
  - eapply callAll_inv; eassumption.
  - eapply resume_inv; eassumption.
Qed.

Lemma exec_inv ins : forall w tr w' effs,
  Inv logger w tr -> exec w ins = (w', effs) -> Inv logger w' (tr ++ effs).
Proof.
  induction ins as [|i ins IH]; intros w tr w' effs HI H; simpl in H.
  - inversion H; subst w' effs. rewrite app_nil_r. exact HI.
  - destruct (step w i) as [w1 e1] eqn:H1.
    destruct (exec w1 ins) as [w2 e2] eqn:H2.
    inversion H; subst w' effs. rewrite app_assoc.
    eapply IH; [|eassumption]. eapply step_inv; eassumption.
Qed.

End Phases.

Lemma construct_inv options h t now :
  Inv (log (this (construct options h t now))) (construct options h t now) [].
Proof. split; [reflexivity|]. apply PhaseIdle; reflexivity. Qed.

Lemma lifetime_inv options h t now ins :
  Inv (log (this (construct options h t now)))
      (fst (lifetime options h t now ins)) (snd (lifetime options h t now ins)).
Proof.
  unfold lifetime.
  destruct (exec (construct options h t now) ins) as [w tr] eqn:H.
  apply (exec_inv _ _ _ _ _ _ (construct_inv options h t now) H).
Qed.

(** ** Projections of a run's trace *)

Ltac block_cases logger c :=
  unfold block, started, report, emitLog;
  destruct logger; destruct c as [[| |?|?|?|?|?|?]|?]; simpl;
  repeat match goal with
         | |- context [if ?b then _ else _] => destruct b; simpl
         end.

Lemma settlementsOf_blocks logger done :
  settlementsOf (flat_map (block logger) done) = done.
Proof.
  induction done as [|[h c] done IH]; simpl; [reflexivity|].
  unfold settlementsOf in *. rewrite flat_map_app, IH.
  block_cases logger c; reflexivity.
Qed.

Lemma callsOf_blocks logger done :
  callsOf (flat_map (block logger) done) = map fst done.
Proof.
  induction done as [|[h c] done IH]; simpl; [reflexivity|].
  unfold callsOf in *. rewrite flat_map_app, IH.
  block_cases logger c; reflexivity.
Qed.

Lemma exitsOf_blocks logger done :
  exitsOf (flat_map (block logger) done) = [].
Proof.
  induction done as [|[h c] done IH]; simpl; [reflexivity|].
  unfold exitsOf in *. rewrite flat_map_app, IH.
  block_cases logger c; reflexivity.
Qed.

Lemma abortsOf_blocks logger done :
  abortsOf (flat_map (block logger) done) = [].
Proof.
  induction done as [|[h c] done IH]; simpl; [reflexivity|].
  unfold abortsOf in *. rewrite flat_map_app, IH.
  block_cases logger c; reflexivity.
Qed.

Lemma warningsOf_blocks logger done :
  warningsOf (flat_map (block logger) done) = [].
Proof.
  induction done as [|[h c] done IH]; simpl; [reflexivity|].
  unfold warningsOf in *. rewrite flat_map_app, IH.
  block_cases logger c; reflexivity.
Qed.

Ltac by_effect tr :=
  induction tr as [|[[]| | | |] tr IH]; simpl; rewrite ?IH; reflexivity.

Lemma settlementsOf_runPart tr : settlementsOf (runPart tr) = settlementsOf tr.
Proof. by_effect tr. Qed.

Lemma callsOf_runPart tr : callsOf (runPart tr) = callsOf tr.
Proof. by_effect tr. Qed.

Lemma exitsOf_runPart tr : exitsOf (runPart tr) = exitsOf tr.
Proof. by_effect tr. Qed.

Lemma abortsOf_runPart tr : abortsOf (runPart tr) = abortsOf tr.
Proof. by_effect tr. Qed.

Lemma warningsOf_runPart tr : warningsOf (runPart tr) = warningsOf tr.
Proof. by_effect tr. Qed.


Lemma In_settlementsOf tr h c : In (Settled h c) tr <-> In (h, c) (settlementsOf tr).
Proof.
  unfold settlementsOf. rewrite in_flat_map. split.
  - intros H. exists (Settled h c). split; [assumption|left; reflexivity].
  - intros [e [He Hc]]. destruct e; simpl in Hc; try contradiction.
    destruct Hc as [Hc|[]]. inversion Hc; subst. assumption.
Qed.


Lemma In_warningsOf_graceful tr : In (Log NotGraceful) tr <-> In NotGraceful (warningsOf tr).
Proof.
  unfold warningsOf. rewrite in_flat_map. split.
  - intros H. exists (Log NotGraceful). split; [assumption|left; reflexivity].
  - intros [e [He Hc]]. destruct e as [[]| | | |]; simpl in Hc; try contradiction;
      destruct Hc as [Hc|[]]; try discriminate. assumption.
Qed.

Lemma In_warningsOf_global tr : In (Log GlobalReached) tr <-> In GlobalReached (warningsOf tr).
Proof.
  unfold warningsOf. rewrite in_flat_map. split.
  - intros H. exists (Log GlobalReached). split; [assumption|left; reflexivity].
  - intros [e [He Hc]]. destruct e as [[]| | | |]; simpl in Hc; try contradiction;
      destruct Hc as [Hc|[]]; try discriminate. assumption.
Qed.

Lemma skipn_middle {A : Type} (a : list A) (x : A) (b : list A) :
  skipn (List.length a) (a ++ x :: b) = x :: b.
Proof.
  rewrite skipn_app, Nat.sub_diag. simpl.
  rewrite skipn_all2; [reflexivity|lia].
Qed.

Lemma phase_facts logger w tr : Inv logger w tr -> TraceFacts logger w tr.
Proof.
  intros [Hlog Hph].
  assert (Hs := settlementsOf_runPart tr). assert (Hc := callsOf_runPart tr).
  assert (He := exitsOf_runPart tr). assert (Ha := abortsOf_runPart tr).
  assert (Hw := warningsOf_runPart tr).
  destruct Hph as [A B C D | f done h rest Hr | s done rest A B C D E].
  - rewrite D in *. simpl in *.
    constructor; rewrite <- ?Hs, <- ?Hc, <- ?He, <- ?Ha, <- ?Hw, ?A, ?B, ?C; simpl;
      try reflexivity.
    + exists (handlers (this w)). reflexivity.
    + intros f Hf. discriminate.
    + intros _. split; reflexivity.
  - destruct Hr.
    assert (S1 : settlementsOf tr = done).
    { rewrite <- Hs, run_trace0. unfold settlementsOf.
      rewrite !flat_map_app. fold (settlementsOf (flat_map (block logger) done)).
      rewrite settlementsOf_blocks.
      unfold prologue, started, emitLog. destruct logger; simpl; rewrite app_nil_r;
        reflexivity. }
    constructor; rewrite ?S1, ?run_suspended0, ?run_latch0, ?run_aborted0; simpl;
      try reflexivity.
    + exists (h :: rest). assumption.
    + rewrite <- Hc, run_trace0. unfold callsOf.
      rewrite !flat_map_app. fold (callsOf (flat_map (block logger) done)).
      rewrite callsOf_blocks, run_registry0, run_index0.
      rewrite <- (length_map fst done), skipn_middle.
      unfold prologue, started, emitLog. destruct logger; reflexivity.
    + intros f0 Hf0. inversion Hf0; subst f0.
      repeat split; try assumption.
      exists h. split; [|assumption].
      rewrite run_registry0, run_index0, <- (length_map fst done).
      apply nth_error_middle.
    + rewrite <- He, run_trace0. unfold exitsOf.
      rewrite !flat_map_app. fold (exitsOf (flat_map (block logger) done)).
      rewrite exitsOf_blocks.
      unfold prologue, started, emitLog. destruct logger; reflexivity.
    + rewrite <- Ha, run_trace0. unfold abortsOf.
      rewrite !flat_map_app. fold (abortsOf (flat_map (block logger) done)).
      rewrite abortsOf_blocks.
      unfold prologue, started, emitLog. destruct logger; reflexivity.
    + discriminate.
    + rewrite <- Hw, run_trace0. unfold warningsOf.
      rewrite !flat_map_app. fold (warningsOf (flat_map (block logger) done)).
      rewrite warningsOf_blocks.
      unfold prologue, started, emitLog. destruct logger; reflexivity.
  - assert (S1 : settlementsOf tr = done).
    { rewrite <- Hs, E. unfold settlementsOf.
      rewrite !flat_map_app. fold (settlementsOf (flat_map (block logger) done)).
      rewrite settlementsOf_blocks.
      unfold prologue, epilogue, emitLog.
      destruct logger; destruct (existsb isFailure (map snd done));
        destruct (existsb isGlobal (map snd done)); simpl; rewrite app_nil_r;
        reflexivity. }
    constructor; rewrite ?S1, ?A, ?B, ?C; simpl; try reflexivity.
    + exists rest. assumption.
    + rewrite <- Hc, E. unfold callsOf.
      rewrite !flat_map_app. fold (callsOf (flat_map (block logger) done)).
      rewrite callsOf_blocks.
      unfold prologue, epilogue, emitLog.
      destruct logger; destruct (existsb isFailure (map snd done));
        destruct (existsb isGlobal (map snd done)); simpl; reflexivity.
    + intros f Hf. discriminate.
    + rewrite <- He, E. unfold exitsOf.
      rewrite !flat_map_app. fold (exitsOf (flat_map (block logger) done)).
      rewrite exitsOf_blocks.
      unfold prologue, epilogue, emitLog.
      destruct logger; destruct (existsb isFailure (map snd done));
        destruct (existsb isGlobal (map snd done)); simpl; reflexivity.
    + rewrite <- Ha, E. unfold abortsOf.
      rewrite !flat_map_app. fold (abortsOf (flat_map (block logger) done)).
      rewrite abortsOf_blocks.
      unfold prologue, epilogue, emitLog.
      destruct logger; destruct (existsb isFailure (map snd done));
        destruct (existsb isGlobal (map snd done)); simpl; reflexivity.
    + discriminate.
    + rewrite <- Hw, E. unfold warningsOf.
      rewrite !flat_map_app. fold (warningsOf (flat_map (block logger) done)).
      rewrite warningsOf_blocks.
      unfold prologue, epilogue, emitLog.
      destruct logger; destruct (existsb isFailure (map snd done));
        destruct (existsb isGlobal (map snd done)); simpl; reflexivity.
Qed.

Lemma lifetime_facts options h t now ins :
  TraceFacts (log (this (construct options h t now)))
             (fst (lifetime options h t now ins)) (snd (lifetime options h t now ins)).
Proof. apply phase_facts, lifetime_inv. Qed.

Lemma running_settlements logger w tr f done h rest :
  Running logger w (runPart tr) f done h rest -> settlementsOf tr = done.
Proof.
  intros Hr. destruct Hr.
  rewrite <- settlementsOf_runPart, run_trace0. unfold settlementsOf.
  rewrite !flat_map_app. fold (settlementsOf (flat_map (block logger) done)).
  rewrite settlementsOf_blocks.
  unfold prologue, started, emitLog. destruct logger; simpl; rewrite app_nil_r;
    reflexivity.
Qed.

Lemma done_settlements logger s done tr :
  runPart tr = prologue logger s ++ flat_map (block logger) done
               ++ epilogue logger s (map snd done) ->
  settlementsOf tr = done.
Proof.
  intros E.
  rewrite <- settlementsOf_runPart, E. unfold settlementsOf.
  rewrite !flat_map_app. fold (settlementsOf (flat_map (block logger) done)).
  rewrite settlementsOf_blocks.
  unfold prologue, epilogue, emitLog.
  destruct logger; destruct (existsb isFailure (map snd done));
    destruct (existsb isGlobal (map snd done)); simpl; rewrite app_nil_r;
    reflexivity.
Qed.

(** The run's own effects, in order: the prologue, one block per completed
    hook, and then either the hook in flight or the epilogue. *)
Lemma phase_shape logger w tr :
  Inv logger w tr ->
  shuttingDown (this w) = true ->
  exists s,
    runPart tr =
    prologue logger s ++ flat_map (block logger) (settlementsOf tr)
    ++ match suspended w with
       | Some f =>
           match nth_error (handlers (this w)) (index f) with
           | Some h => started logger h
           | None => []
           end
       | None => epilogue logger s (map snd (settlementsOf tr))
       end.
Proof.
  intros [Hlog Hph] Hsd.
  destruct Hph as [A B C D | f done h rest Hr | s done rest A B C D E].
  - congruence.
  - rewrite (running_settlements _ _ _ _ _ _ _ Hr). destruct Hr.
    exists (signal f). rewrite run_suspended0, run_registry0, run_index0.
    rewrite <- (length_map fst done), nth_error_middle. assumption.
  - rewrite (done_settlements _ _ _ _ E). exists s. rewrite A. assumption.
Qed.



Lemma exitsOf_process_exit w code : exitsOf (process_exit w code) = [code].
Proof. rewrite <- exitsOf_runPart, runPart_process_exit. reflexivity. Qed.

Lemma exitsOf_finish w f :
  exitsOf (snd (finish w f)) = [if withError f || forceExit f then 1 else 0].
Proof.
  unfold finish. simpl. unfold exitsOf.
  rewrite !flat_map_app. fold (exitsOf (process_exit w (if withError f || forceExit f then 1 else 0))).
  rewrite exitsOf_process_exit. unfold say, emitLog.
  destruct (log (this w)); destruct (withError f); destruct (forceExit f); reflexivity.
Qed.

(** ** The exit status *)



(** ** What no operation changes *)

Lemma Evolves_refl sm : Evolves sm sm.
Proof. constructor; auto. exists []. rewrite app_nil_r. reflexivity. Qed.

Lemma Evolves_trans a b c : Evolves a b -> Evolves b c -> Evolves a c.
Proof.
  intros [[x Hx] A1 A2 A3 A4 A5 A6 A7] [[y Hy] B1 B2 B3 B4 B5 B6 B7].
  constructor; try congruence; auto.
  exists (x ++ y). rewrite Hy, Hx, app_assoc. reflexivity.
Qed.

Lemma processSignal_guard w s :
  shuttingDown (this w) = true ->
  processSignal w s = (w, say (this w) (Ignoring s)).
Proof. intros H. unfold processSignal. rewrite H. reflexivity. Qed.

Lemma processSignal_start w s :
  shuttingDown (this w) = false ->
  processSignal w s =
  (fst (runLoop (with_this w (set_abortController (set_shuttingDown (this w) true)
                                (fst (abort (abortController (this w))))))
                (firstFrame w s)),
   say (this w) (ProcessingSignal s)
   ++ snd (abort (abortController (this w)))
   ++ snd (runLoop (with_this w (set_abortController (set_shuttingDown (this w) true)
                                   (fst (abort (abortController (this w))))))
                   (firstFrame w s))).
Proof.
  intros Hsd. unfold processSignal. rewrite Hsd. simpl.
  destruct (abort (abortController (this w))) as [a fired]. simpl.
  unfold firstFrame.
  match goal with
  | |- context [runLoop ?W ?F] => destruct (runLoop W F) as [w1 e1]
  end.
  reflexivity.
Qed.

Lemma processSignal_evolves w s : Evolves (this w) (this (fst (processSignal w s))).
Proof.
  destruct (shuttingDown (this w)) eqn:Hsd.
  - rewrite processSignal_guard by assumption. apply Evolves_refl.
  - rewrite processSignal_start by assumption. simpl.
    match goal with
    | |- context [runLoop ?W ?F] =>
        destruct (runLoop W F) as [w1 e1] eqn:Hrun;
        pose proof (runLoop_frame W F _ _ Hrun) as (Hthis & _ & _)
    end.
    simpl in *. rewrite Hthis.
    unfold abort. destruct (aborted (abortController (this w))) eqn:Hab; simpl;
      constructor; simpl; auto; exists []; rewrite app_nil_r; reflexivity.
Qed.

Lemma processSignal_listeners w s : listeners (fst (processSignal w s)) = listeners w.
Proof.
  destruct (shuttingDown (this w)) eqn:Hsd.
  - rewrite processSignal_guard by assumption. reflexivity.
  - rewrite processSignal_start by assumption. simpl.
    match goal with
    | |- context [runLoop ?W ?F] =>
        destruct (runLoop W F) as [w1 e1] eqn:Hrun;
        pose proof (runLoop_frame W F _ _ Hrun) as (_ & Hl & _)
    end.
    simpl in *. rewrite Hl. reflexivity.
Qed.

Lemma processSignal_accepts w s :
  shuttingDown (this w) = false ->
  shuttingDown (this (fst (processSignal w s))) = true.
Proof.
  intros Hsd. rewrite processSignal_start by assumption. simpl.
  match goal with
  | |- context [runLoop ?W ?F] =>
      destruct (runLoop W F) as [w1 e1] eqn:Hrun;
      pose proof (runLoop_frame W F _ _ Hrun) as (Hthis & _ & _)
  end.
  simpl in *. rewrite Hthis. reflexivity.
Qed.

Lemma resume_frame w :
  this (fst (resume w)) = this w /\ listeners (fst (resume w)) = listeners w.
Proof.
  unfold resume. destruct (suspended w) as [f|]; [|split; reflexivity].
  destruct (nth_error (handlers (this w)) (index f)) as [h|]; [|split; reflexivity].
  destruct (race _ _ _ _) as [t c]. destruct (afterRace _ _ _ _) as [f1 e1].
  destruct (runLoop (with_clock w t) (next f1)) as [w1 e2] eqn:Hrun.
  pose proof (runLoop_frame _ _ _ _ Hrun) as (A & B & _). simpl. auto.
Qed.

Lemma callListener_evolves w l em :
  Evolves (this w) (this (fst (callListener w l em)))
  /\ listeners (fst (callListener w l em)) = listeners w.
Proof.
  unfold callListener, processErrors.
  destruct l; destruct em; simpl;
    try (split; [apply Evolves_refl|reflexivity]);
    try (split; [apply processSignal_evolves|apply processSignal_listeners]).
  all: pose proof (processSignal_evolves w "SIGUSR2");
    pose proof (processSignal_listeners w "SIGUSR2");
    destruct (processSignal w "SIGUSR2"); simpl in *; split; assumption.
Qed.

Lemma callAll_evolves ls : forall w em,
  Evolves (this w) (this (fst (callAll w ls em)))
  /\ listeners (fst (callAll w ls em)) = listeners w.
Proof.
  induction ls as [|l ls IH]; intros w em; simpl.
  - split; [apply Evolves_refl|reflexivity].
  - pose proof (callListener_evolves w l em) as [H1 H2].
    destruct (callListener w l em) as [w1 e1]. simpl in *.
    specialize (IH w1 em). destruct (callAll w1 ls em) as [w2 e2]. simpl in *.
    destruct IH as [H3 H4]. split; [eapply Evolves_trans; eassumption|congruence].
Qed.

Lemma step_evolves w i : Evolves (this w) (this (fst (step w i))).
Proof.
  destruct i; simpl.
  - constructor; simpl; auto. eexists. reflexivity.
  - apply Evolves_refl.
  - apply callAll_evolves.
  - rewrite (proj1 (resume_frame w)). apply Evolves_refl.
Qed.

Lemma exec_evolves ins : forall w, Evolves (this w) (this (fst (exec w ins))).
Proof.
  induction ins as [|i ins IH]; intros w; simpl.
  - apply Evolves_refl.
  - pose proof (step_evolves w i) as H1.
    destruct (step w i) as [w1 e1]. simpl in *.
    specialize (IH w1). destruct (exec w1 ins) as [w2 e2]. simpl in *.
    eapply Evolves_trans; eassumption.
Qed.

(** *** Events that arrive while the coordinator is shutting down *)

Lemma callListener_busy w l em :
  shuttingDown (this w) = true ->
  fst (callListener w l em) = w /\ runPart (snd (callListener w l em)) = [].
Proof.
  intros Hsd. unfold callListener, processErrors, onExit.
  destruct l; destruct em; simpl; rewrite ?processSignal_guard by assumption; simpl;
    try (split; reflexivity);
    unfold say; rewrite ?runPart_app;
    rewrite ?(emitLog_not_run _ (Uncaught _)) by reflexivity;
    rewrite ?(emitLog_not_run _ (Ignoring _)) by reflexivity;
    rewrite ?(emitLog_not_run _ (Exiting _)) by reflexivity;
    split; reflexivity.
Qed.

Lemma callAll_busy ls : forall w em,
  shuttingDown (this w) = true ->
  fst (callAll w ls em) = w /\ runPart (snd (callAll w ls em)) = [].
Proof.
  induction ls as [|l ls IH]; intros w em Hsd; simpl; [split; reflexivity|].
  pose proof (callListener_busy w l em Hsd) as [H1 H2].
  destruct (callListener w l em) as [w1 e1]. simpl in *. subst w1.
  specialize (IH w em Hsd). destruct (callAll w ls em) as [w2 e2]. simpl in *.
  destruct IH as [H3 H4]. split; [assumption|].
  rewrite runPart_app, H2, H4. reflexivity.
Qed.

Lemma emit_busy w em :
  shuttingDown (this w) = true ->
  fst (emit w em) = w /\ runPart (snd (emit w em)) = [].
Proof. intros H. apply callAll_busy. exact H. Qed.

(** Once the sequence has run to its end, nothing adds to the run's trace. *)
Lemma step_after_completion w i :
  shuttingDown (this w) = true -> suspended w = None ->
  shuttingDown (this (fst (step w i))) = true
  /\ suspended (fst (step w i)) = None
  /\ runPart (snd (step w i)) = [].
Proof.
  intros Hsd Hsus. destruct i; simpl.
  - repeat split; try assumption. unfold say.
    apply emitLog_not_run. reflexivity.
  - repeat split; assumption.
  - destruct (emit_busy w em Hsd) as [H1 H2]. fold (emit w em).
    rewrite H1. repeat split; assumption.
  - unfold resume. rewrite Hsus. simpl. repeat split; assumption.
Qed.

Lemma exec_after_completion ins : forall w,
  shuttingDown (this w) = true -> suspended w = None ->
  shuttingDown (this (fst (exec w ins))) = true
  /\ suspended (fst (exec w ins)) = None
  /\ runPart (snd (exec w ins)) = [].
Proof.
  induction ins as [|i ins IH]; intros w Hsd Hsus; simpl.
  - repeat split; assumption.
  - pose proof (step_after_completion w i Hsd Hsus) as (A & B & C).
    destruct (step w i) as [w1 e1]. simpl in *.
    specialize (IH w1 A B). destruct (exec w1 ins) as [w2 e2]. simpl in *.
    destruct IH as (D & E & F). repeat split; try assumption.
    rewrite runPart_app, C, F. reflexivity.
Qed.

(** The handlers called so far are the first entries of the registry, in
    order and once each. *)
Lemma calls_prefix logger w tr :
  Inv logger w tr -> exists rest, handlers (this w) = callsOf tr ++ rest.
Proof.
  intros HI. pose proof (phase_facts _ _ _ HI) as F.
  destruct (facts_settled_prefix _ _ _ F) as [rest0 Hreg].
  rewrite (facts_calls _ _ _ F).
  destruct (suspended w) as [f|] eqn:Hsus.
  - destruct (facts_index _ _ _ F f Hsus) as (Hidx & _).
    rewrite Hreg, Hidx, <- (length_map fst (settlementsOf tr)).
    rewrite skipn_app, Nat.sub_diag, skipn_all2 by lia. simpl.
    exists (skipn 1 rest0). rewrite <- app_assoc. f_equal.
    destruct rest0; reflexivity.
  - exists rest0. rewrite app_nil_r. assumption.
Qed.

(** ** Re-entrant triggers *)

(** C2.  [#processSignal] called while the latch is set returns the world
    unchanged and logs one line, a warning whose context names the signal.
    An event emitted on the process in that state changes nothing and adds
    nothing to the run (no handler call, no completion, no exit); when the
    signal has the one listener bound by the constructor the warning is the
    only effect, and an uncaught error logs its error line and then the same
    warning for SIGUSR2.  The latch is never reset, and over a whole lifetime, whatever
    the inputs, [process.exit] is called at most once, the abort signal fires
    at most once and the handlers called are the first registry entries, once
    each; exactly one exit has happened once the sequence has run to its end. *)
Theorem C2_reentrant_trigger_ignored :
  (forall w s, shuttingDown (this w) = true ->
     processSignal w s = (w, emitLog (log (this w)) (Ignoring s)))
  /\ (forall s,
        render (Ignoring s) =
        {| level := LevelWarn;
           args := [Object [("signal", Str s)];
                    Str "Ignoring process exit signal has the app is shutting down."] |})
  /\ (forall w em, shuttingDown (this w) = true ->
        fst (emit w em) = w
        /\ callsOf (snd (emit w em)) = []
        /\ settlementsOf (snd (emit w em)) = []
        /\ exitsOf (snd (emit w em)) = []
        /\ runPart (snd (emit w em)) = [])
  /\ (forall w s, shuttingDown (this w) = true ->
        Process.listenersOf (OnSignal s) (listeners w) = [ProcessSignalFn s] ->
        emit w (EmitSignal s) = (w, emitLog (log (this w)) (Ignoring s)))
  /\ (forall w e, shuttingDown (this w) = true ->
        processErrors w e =
        (w, emitLog (log (this w)) (Uncaught e)
            ++ emitLog (log (this w)) (Ignoring "SIGUSR2")))
  /\ (forall w s, shuttingDown (this w) = false ->
        shuttingDown (this (fst (processSignal w s))) = true)
  /\ (forall w i, shuttingDown (this w) = true ->
        shuttingDown (this (fst (step w i))) = true)
  /\ (forall options h t now ins,
        let w := fst (lifetime options h t now ins) in
        let tr := snd (lifetime options h t now ins) in
        (List.length (exitsOf tr) <= 1)%nat
        /\ (List.length (abortsOf tr) <= 1)%nat
        /\ (exists rest, handlers (this w) = callsOf tr ++ rest)
        /\ (shuttingDown (this w) = true -> suspended w = None ->
            List.length (exitsOf tr) = 1%nat)).
Proof.
  split; [|split; [|split; [|split; [|split; [|split; [|split]]]]]].
  - intros w s H. apply processSignal_guard. exact H.
  - reflexivity.
  - intros w em H. destruct (emit_busy w em H) as [A B].
    split; [exact A|].
    rewrite <- callsOf_runPart, <- settlementsOf_runPart, <- exitsOf_runPart, B.
    repeat split.
  - intros w s H Hl. unfold emit. simpl. rewrite Hl. simpl.
    rewrite processSignal_guard by assumption.
    unfold say. rewrite app_nil_r. reflexivity.
  - intros w e H. unfold processErrors.
    rewrite processSignal_guard by assumption. reflexivity.
  - apply processSignal_accepts.
  - intros w i H. apply (ev_latch _ _ (step_evolves w i)). exact H.
  - intros options h t now ins w tr.
    pose proof (lifetime_inv options h t now ins) as HI. fold w tr in HI.
    pose proof (phase_facts _ _ _ HI) as F.
    split; [|split; [|split]].
    + rewrite (facts_exits _ _ _ F).
      destruct (shuttingDown (this w) && _); simpl; lia.
    + rewrite (facts_aborts _ _ _ F).
      destruct (shuttingDown (this w)); simpl; lia.
    + eapply calls_prefix. exact HI.
    + intros Hsd Hsus. rewrite (facts_exits _ _ _ F), Hsd, Hsus. reflexivity.
Qed.

Lemma C2_reentrant_trigger_ignored_witness :
  let w := fst (lifetime withLogger 0 [] 0
                  [AddHook "foo" (Immediate Fulfils); Emit (EmitSignal "SIGINT")]) in
  shuttingDown (this w) = true
  /\ Process.listenersOf (OnSignal "SIGINT") (listeners w) = [ProcessSignalFn "SIGINT"]
  /\ emit w (EmitSignal "SIGINT") = (w, [Log (Ignoring "SIGINT")]).
Proof.
  intros w.
  destruct C2_reentrant_trigger_ignored as (_ & _ & _ & H & _).
  split; [reflexivity|]. split; [reflexivity|].
  exact (H w "SIGINT" eq_refl eq_refl).
Defined.

(** ** The registry and the run *)

(** [resume] when the handler in flight is known. *)
Lemma resume_unfold w f hk :
  suspended w = Some f ->
  nth_error (handlers (this w)) (index f) = Some hk ->
  resume w =
  let tc := race (clock w) (handler hk)
                 (Timers.setTimeout (clock w) (perHookTimeout (this w)))
                 (globalTimeout f) in
  let fe := afterRace (this w) hk (snd tc) f in
  let we := runLoop (with_clock w (fst tc)) (next (fst fe)) in
  (fst we, Settled hk (snd tc) :: snd fe ++ snd we).
Proof.
  intros Hs Hn. unfold resume. rewrite Hs, Hn.
  destruct (race _ _ _ _) as [t c]. simpl.
  destruct (afterRace (this w) hk c f) as [f1 e1]. simpl.
  destruct (runLoop (with_clock w t) (next f1)) as [w1 e2]. reflexivity.
Qed.

Lemma exec_app a : forall w b,
  exec w (a ++ b) =
  (fst (exec (fst (exec w a)) b), snd (exec w a) ++ snd (exec (fst (exec w a)) b)).
Proof.
  induction a as [|i a IH]; intros w b; simpl.
  - destruct (exec w b); reflexivity.
  - destruct (step w i) as [w1 e1]. rewrite IH.
    destruct (exec w1 a) as [w2 e2]. simpl.
    destruct (exec w2 b) as [w3 e3]. simpl. rewrite app_assoc. reflexivity.
Qed.

Lemma exec_cons w i ins :
  exec w (i :: ins) =
  (fst (exec (fst (step w i)) ins), snd (step w i) ++ snd (exec (fst (step w i)) ins)).
Proof.
  simpl. destruct (step w i) as [w1 e1]. simpl.
  destruct (exec w1 ins) as [w2 e2]. reflexivity.
Qed.

Lemma processSignal_handlers w s :
  handlers (this (fst (processSignal w s))) = handlers (this w).
Proof.
  destruct (shuttingDown (this w)) eqn:Hsd.
  - rewrite processSignal_guard by assumption. reflexivity.
  - rewrite processSignal_start by assumption. simpl.
    match goal with
    | |- context [runLoop ?W ?F] =>
        destruct (runLoop W F) as [w1 e1] eqn:Hrun;
        pose proof (runLoop_frame W F _ _ Hrun) as (Hthis & _ & _)
    end.
    simpl in *. rewrite Hthis. reflexivity.
Qed.

Lemma callListener_handlers w l em :
  handlers (this (fst (callListener w l em))) = handlers (this w).
Proof.
  unfold callListener, processErrors.
  destruct l; destruct em; simpl; try reflexivity; try apply processSignal_handlers.
  all: pose proof (processSignal_handlers w "SIGUSR2");
    destruct (processSignal w "SIGUSR2"); assumption.
Qed.

Lemma callAll_handlers ls : forall w em,
  handlers (this (fst (callAll w ls em))) = handlers (this w).
Proof.
  induction ls as [|l ls IH]; intros w em; simpl; [reflexivity|].
  pose proof (callListener_handlers w l em) as H1.
  destruct (callListener w l em) as [w1 e1]. simpl in *.
  specialize (IH w1 em). destruct (callAll w1 ls em) as [w2 e2]. simpl in *.
  congruence.
Qed.

Lemma step_handlers w i :
  handlers (this (fst (step w i))) = handlers (this w) ++ addedBy [i].
Proof.
  destruct i; simpl; rewrite ?app_nil_r; try reflexivity.
  - apply callAll_handlers.
  - rewrite (proj1 (resume_frame w)). reflexivity.
Qed.

Lemma exec_handlers ins : forall w,
  handlers (this (fst (exec w ins))) = handlers (this w) ++ addedBy ins.
Proof.
  induction ins as [|i ins IH]; intros w.
  - simpl. rewrite app_nil_r. reflexivity.
  - rewrite exec_cons. simpl fst. rewrite IH, step_handlers.
    rewrite <- app_assoc. f_equal. unfold addedBy. simpl.
    rewrite app_nil_r. reflexivity.
Qed.

Lemma callsOf_app a b : callsOf (a ++ b) = callsOf a ++ callsOf b.
Proof. apply flat_map_app. Qed.

Lemma settlementsOf_app a b : settlementsOf (a ++ b) = settlementsOf a ++ settlementsOf b.
Proof. apply flat_map_app. Qed.

Lemma exitsOf_app a b : exitsOf (a ++ b) = exitsOf a ++ exitsOf b.
Proof. apply flat_map_app. Qed.

Lemma callsOf_emitLog logger l : callsOf (emitLog logger l) = [].
Proof. destruct logger; reflexivity. Qed.

Lemma callsOf_report logger h c : callsOf (report logger h c) = [].
Proof.
  unfold report. destruct c as [r|e]; [|apply callsOf_emitLog].
  destruct (strictEqualsString r "timeout"); [apply callsOf_emitLog|].
  destruct (strictEqualsString r "global-timeout"); [reflexivity|apply callsOf_emitLog].
Qed.

Lemma callsOf_finish w f : callsOf (snd (finish w f)) = [].
Proof.
  unfold finish. simpl. rewrite !callsOf_app.
  rewrite <- (callsOf_runPart (process_exit _ _)), runPart_process_exit.
  unfold say. rewrite callsOf_emitLog.
  destruct (withError f); destruct (forceExit f); rewrite ?callsOf_emitLog; reflexivity.
Qed.

(** When the loop runs to its end it has called every handler from the
    iterator's position to the end of the array. *)
Lemma runLoop_exhausts w f :
  suspended (fst (runLoop w f)) = None ->
  callsOf (snd (runLoop w f)) = skipn (index f) (handlers (this w)).
Proof.
  unfold runLoop.
  destruct (forOf (this w) (skipn (index f) (handlers (this w))) f) as [st e1] eqn:Hfor.
  destruct (forOf_run _ _ _ _ _ Hfor) as [thrown [_ Hst]].
  destruct st as [f'|f']; cbv beta iota in Hst.
  - simpl. discriminate.
  - destruct Hst as (Hr & He & _). intros _.
    pose proof (callsOf_finish w f') as Hfin.
    destruct (finish w f') as [w' e2]. simpl in *.
    rewrite callsOf_app, Hfin, app_nil_r, He, callsOf_blocks, Hr. reflexivity.
Qed.

Lemma calls_then_rest {A : Type} (a rest : list A) (n : nat) :
  n = List.length a ->
  (a ++ firstn 1 (skipn n (a ++ rest))) ++ skipn (S n) (a ++ rest) = a ++ rest.
Proof.
  intros ->. rewrite <- app_assoc. f_equal.
  replace (S (List.length a)) with (1 + List.length a)%nat by lia.
  rewrite <- skipn_skipn.
  rewrite skipn_app, Nat.sub_diag, skipn_all2 by lia.
  destruct rest; reflexivity.
Qed.

Lemma processSignal_exhaustive logger w tr s :
  Inv logger w tr -> Exhaustive w tr ->
  Exhaustive (fst (processSignal w s)) (tr ++ snd (processSignal w s)).
Proof.
  intros HI HE. destruct (shuttingDown (this w)) eqn:Hsd.
  - rewrite processSignal_guard by assumption. simpl. intros A B.
    unfold say. rewrite callsOf_app, callsOf_emitLog, app_nil_r. apply HE; assumption.
  - pose proof (phase_facts _ _ _ HI) as F.
    destruct (facts_idle _ _ _ F Hsd) as [Hsus HS].
    pose proof (facts_calls _ _ _ F) as Hc. rewrite Hsus, HS in Hc. simpl in Hc.
    pose proof (processSignal_handlers w s) as Hh.
    rewrite processSignal_start in * by assumption. simpl fst in *. simpl snd.
    intros _ Hdone. rewrite Hh.
    rewrite !callsOf_app, Hc. unfold say. rewrite callsOf_emitLog. simpl.
    rewrite runLoop_exhausts by assumption. simpl.
    unfold abort. destruct (aborted (abortController (this w))); reflexivity.
Qed.

Lemma callListener_exhaustive logger w tr l em :
  Inv logger w tr -> Exhaustive w tr ->
  Exhaustive (fst (callListener w l em)) (tr ++ snd (callListener w l em)).
Proof.
  intros HI HE. unfold callListener, processErrors, onExit.
  destruct l; destruct em; simpl; rewrite ?app_nil_r; try exact HE;
    try (eapply processSignal_exhaustive; eassumption).
  - pose proof (processSignal_exhaustive _ _ _ "SIGUSR2" HI HE) as H.
    destruct (processSignal w "SIGUSR2") as [w1 e1]. simpl in *.
    intros A B. rewrite !callsOf_app. unfold say. rewrite callsOf_emitLog. simpl.
    rewrite <- callsOf_app. apply H; assumption.
  - pose proof (processSignal_exhaustive _ _ _ "SIGUSR2" HI HE) as H.
    destruct (processSignal w "SIGUSR2") as [w1 e1]. simpl in *.
    intros A B. rewrite !callsOf_app. unfold say. rewrite callsOf_emitLog. simpl.
    rewrite <- callsOf_app. apply H; assumption.
  - intros A B. unfold say. rewrite callsOf_app, callsOf_emitLog, app_nil_r.
    apply HE; assumption.
Qed.

Lemma callAll_exhaustive logger ls : forall w tr em,
  Inv logger w tr -> Exhaustive w tr ->
  Exhaustive (fst (callAll w ls em)) (tr ++ snd (callAll w ls em)).
Proof.
  induction ls as [|l ls IH]; intros w tr em HI HE; simpl.
  - rewrite app_nil_r. exact HE.
  - pose proof (callListener_exhaustive _ _ _ l em HI HE) as H1.
    pose proof (callListener_inv logger w tr l em) as H2.
    destruct (callListener w l em) as [w1 e1]. simpl in *.
    specialize (H2 _ _ HI eq_refl).
    specialize (IH w1 (tr ++ e1) em H2 H1).
    destruct (callAll w1 ls em) as [w2 e2]. simpl in *.
    rewrite app_assoc. exact IH.
Qed.

Lemma resume_exhaustive logger w tr :
  Inv logger w tr -> Exhaustive w tr ->
  Exhaustive (fst (resume w)) (tr ++ snd (resume w)).
Proof.
  intros HI HE. destruct (suspended w) as [f|] eqn:Hsus.
  2:{ unfold resume. rewrite Hsus. simpl. rewrite app_nil_r. exact HE. }
  pose proof (phase_facts _ _ _ HI) as F.
  destruct (facts_index _ _ _ F f Hsus) as (Hidx & _ & _ & _ & _ & hk & Hnth & _).
  destruct (facts_settled_prefix _ _ _ F) as [rest0 Hreg].
  pose proof (facts_calls _ _ _ F) as Hc. rewrite Hsus in Hc.
  pose proof (proj1 (resume_frame w)) as Hthis.
  rewrite (resume_unfold w f hk Hsus Hnth) in *. simpl fst in *. simpl snd.
  intros _ Hdone. rewrite Hthis.
  rewrite callsOf_app. simpl. rewrite callsOf_app.
  rewrite afterRace_effects, callsOf_report. simpl.
  rewrite runLoop_exhausts by assumption. simpl this. simpl index.
  destruct (afterRace_frame (this w) hk
              (snd (race (clock w) (handler hk)
                         (Timers.setTimeout (clock w) (perHookTimeout (this w)))
                         (globalTimeout f))) f) as (_ & Hi & _).
  rewrite Hi, Hc, Hreg.
  apply calls_then_rest. rewrite Hidx, length_map. reflexivity.
Qed.

Lemma step_exhaustive logger w tr i :
  Inv logger w tr -> Exhaustive w tr ->
  (shuttingDown (this w) = false \/ suspended w <> None) ->
  Exhaustive (fst (step w i)) (tr ++ snd (step w i)).
Proof.
  intros HI HE Hnot. destruct i; simpl.
  - intros A B. simpl in *. destruct Hnot; congruence.
  - rewrite app_nil_r. exact HE.
  - eapply callAll_exhaustive; eassumption.
  - eapply resume_exhaustive; eassumption.
Qed.

(** ** The sequence always reaches its end *)

Lemma resume_advances logger w tr f :
  Inv logger w tr -> suspended w = Some f ->
  forall f', suspended (fst (resume w)) = Some f' -> (index f < index f')%nat.
Proof.
  intros HI Hsus f' Hsus'.
  pose proof (phase_facts _ _ _ HI) as F.
  destruct (facts_index _ _ _ F f Hsus) as (Hidx & _ & _ & _ & _ & hk & Hnth & _).
  pose proof (resume_inv logger w tr (fst (resume w)) (snd (resume w)) HI) as HI'.
  rewrite <- surjective_pairing in HI'. specialize (HI' eq_refl).
  pose proof (phase_facts _ _ _ HI') as F'.
  destruct (facts_index _ _ _ F' f' Hsus') as (Hidx' & _).
  rewrite Hidx, Hidx'.
  rewrite (resume_unfold w f hk Hsus Hnth). simpl snd.
  rewrite settlementsOf_app. simpl. rewrite length_app. simpl. lia.
Qed.

Lemma drain logger n : forall w tr,
  Inv logger w tr ->
  (forall f, suspended w = Some f ->
             (List.length (handlers (this w)) - index f <= n)%nat) ->
  suspended (fst (exec w (repeat Resume n))) = None
  /\ this (fst (exec w (repeat Resume n))) = this w.
Proof.
  induction n as [|n IH]; intros w tr HI Hm.
  - simpl. split; [|reflexivity].
    destruct (suspended w) as [f|] eqn:Hsus; [|reflexivity].
    pose proof (phase_facts _ _ _ HI) as F.
    destruct (facts_index _ _ _ F f Hsus) as (_ & _ & _ & _ & _ & hk & Hnth & _).
    assert (index f < List.length (handlers (this w)))%nat
      by (apply nth_error_Some; congruence).
    specialize (Hm f eq_refl). lia.
  - simpl repeat. rewrite exec_cons. simpl fst. simpl step.
    pose proof (resume_inv logger w tr (fst (resume w)) (snd (resume w)) HI) as HI'.
    rewrite <- surjective_pairing in HI'. specialize (HI' eq_refl).
    pose proof (proj1 (resume_frame w)) as Hthis.
    destruct (IH (fst (resume w)) _ HI') as [A B].
    + intros f' Hsus'. rewrite Hthis.
      destruct (suspended w) as [f|] eqn:Hsus.
      * pose proof (resume_advances _ _ _ _ HI Hsus f' Hsus').
        specialize (Hm f eq_refl). lia.
      * unfold resume in Hsus'. rewrite Hsus in Hsus'. simpl in Hsus'. congruence.
    + split; [assumption|congruence].
Qed.

Lemma drain_inv logger n : forall w tr,
  Inv logger w tr ->
  Inv logger (fst (exec w (repeat Resume n))) (tr ++ snd (exec w (repeat Resume n))).
Proof.
  intros w tr HI. eapply exec_inv; [exact HI|]. apply surjective_pairing.
Qed.



(** ** The global deadline *)






Lemma settled_not_idle logger w tr h c :
  Inv logger w tr -> In (Settled h c) tr -> shuttingDown (this w) = true.
Proof.
  intros HI Hin. pose proof (phase_facts _ _ _ HI) as F.
  destruct (shuttingDown (this w)) eqn:Hsd; [reflexivity|].
  destruct (facts_idle _ _ _ F Hsd) as [_ Hs].
  apply In_settlementsOf in Hin. rewrite Hs in Hin. contradiction.
Qed.

Lemma settled_flag (p : Completion -> bool) tr h c :
  In (Settled h c) tr -> p c = true ->
  existsb p (map snd (settlementsOf tr)) = true.
Proof.
  intros Hin Hp. apply existsb_exists. exists c. split; [|assumption].
  apply in_map_iff. exists (h, c). split; [reflexivity|].
  apply In_settlementsOf. assumption.
Qed.



(** ** Hook timeouts *)

(** What the loop logged for a hook that completed is in the trace. *)
Lemma settled_reported logger w tr h c :
  Inv logger w tr -> In (Settled h c) tr ->
  incl (block logger (h, c)) tr.
Proof.
  intros HI Hin e He.
  pose proof (settled_not_idle _ _ _ _ _ HI Hin) as Hsd.
  destruct (phase_shape _ _ _ HI Hsd) as [s Hshape].
  assert (Hr : In e (runPart tr)).
  { rewrite Hshape. apply in_or_app. right. apply in_or_app. left.
    apply in_flat_map. exists (h, c). split; [|assumption].
    apply In_settlementsOf. assumption. }
  unfold runPart in Hr. apply filter_In in Hr. tauto.
Qed.

(** A run that has not reached the global deadline never logs the warning. *)
Lemma no_global_warning logger w tr :
  Inv logger w tr ->
  existsb isGlobal (map snd (settlementsOf tr)) = false ->
  ~ In (Log GlobalReached) tr.
Proof.
  intros HI Hg Hin. apply In_warningsOf_global in Hin.
  rewrite (facts_warnings _ _ _ (phase_facts _ _ _ HI)), Hg in Hin.
  destruct (shuttingDown (this w) && _); simpl in Hin; [|contradiction].
  rewrite app_nil_r in Hin.
  destruct (existsb isFailure _ && logger); simpl in Hin; [|contradiction].
  destruct Hin as [Hin|[]]. discriminate.
Qed.

Lemma graceful_warning logger w tr :
  Inv logger w tr ->
  shuttingDown (this w) = true -> suspended w = None ->
  existsb isFailure (map snd (settlementsOf tr)) = true ->
  log (this w) = true ->
  In (Log NotGraceful) tr.
Proof.
  intros HI Hsd Hsus Hf Hlog. apply In_warningsOf_graceful.
  destruct HI as [Hl HP]. pose proof (phase_facts _ _ _ (conj Hl HP)) as F.
  rewrite (facts_warnings _ _ _ F), Hsd, Hsus, Hf, <- Hl, Hlog.
  left. reflexivity.
Qed.

Lemma race_timeout_first now perHook global :
  now < perHook -> perHook < global ->
  race now Never perHook global = (perHook, timeoutMarker).
Proof.
  intros H1 H2. unfold race, timeoutMarker.
  assert (A : (global <=? now) = false) by (apply Z.leb_gt; lia).
  assert (B : (perHook <? global) = true) by (apply Z.ltb_lt; lia).
  rewrite A, B. reflexivity.
Qed.

(** C4.  A handler that never settles loses its race to the per-hook timer
    when that timer comes before the shared one: the race completes with the
    timeout marker at the per-hook instant.  The loop body then sets
    [withError] and logs the timed-out line, and the loop goes on with the
    next registry position.  In a run in which every hook either completed
    normally or timed out, and one did time out, each timed-out hook has its
    timed-out line, the exit status is 1, the warning about handlers is
    logged and the global-timeout warning is not. *)
Theorem C4_hook_timeout :
  (forall now perHook global,
     now < perHook -> perHook < global ->
     race now Never perHook global = (perHook, timeoutMarker))
  /\ (forall sm hk f,
        afterRace sm hk timeoutMarker f =
        (set_withError f true, emitLog (log sm) (TimedOut (name hk))))
  /\ (forall w f hk,
        suspended w = Some f ->
        nth_error (handlers (this w)) (index f) = Some hk ->
        handler hk = Never ->
        Timers.setTimeout (clock w) (perHookTimeout (this w)) < globalTimeout f ->
        let at_ := Timers.setTimeout (clock w) (perHookTimeout (this w)) in
        let we := runLoop (with_clock w at_) (next (set_withError f true)) in
        resume w =
        (fst we,
         Settled hk timeoutMarker :: emitLog (log (this w)) (TimedOut (name hk)) ++ snd we))
  /\ (forall options h t now ins hk,
        let w := fst (lifetime options h t now ins) in
        let tr := snd (lifetime options h t now ins) in
        In (Settled hk timeoutMarker) tr ->
        (log (this w) = true -> In (Log (TimedOut (name hk))) tr)
        /\ (suspended w = None ->
            exitsOf tr = [1]
            /\ (log (this w) = true -> In (Log NotGraceful) tr))
        /\ ((forall hk' c, In (Settled hk' c) tr ->
                           c = Normal Undefined \/ c = timeoutMarker) ->
            ~ In (Log GlobalReached) tr)).
Proof.
  split; [|split; [|split]].
  - apply race_timeout_first.
  - reflexivity.
  - intros w f hk Hs Hn Hh Hlt at_ we.
    rewrite (resume_unfold w f hk Hs Hn), Hh.
    rewrite race_timeout_first; [reflexivity| |assumption].
    apply setTimeout_later.
  - intros options h t now ins hk w tr Hin.
    pose proof (lifetime_inv options h t now ins) as HI. fold w tr in HI.
    pose proof (phase_facts _ _ _ HI) as F.
    pose proof (settled_flag isFailure _ _ _ Hin eq_refl) as Hf.
    pose proof (settled_not_idle _ _ _ _ _ HI Hin) as Hsd.
    split; [|split].
    + intros Hlog. apply (settled_reported _ _ _ _ _ HI Hin).
      destruct HI as [Hl _]. rewrite <- Hl, Hlog.
      unfold block, started, emitLog. simpl. auto.
    + intros Hsus. split.
      * rewrite (facts_exits _ _ _ F), Hsd, Hsus. simpl.
        unfold statusOf. rewrite Hf. reflexivity.
      * intros Hlog. eapply graceful_warning; eassumption.
    + intros Hall. eapply no_global_warning; [exact HI|].
      destruct (existsb isGlobal (map snd (settlementsOf tr))) eqn:Hg; [|reflexivity].
      apply existsb_exists in Hg. destruct Hg as [c [Hc Hgc]].
      apply in_map_iff in Hc. destruct Hc as [[hk' c'] [Heq Hc]]. simpl in Heq. subst c'.
      apply In_settlementsOf in Hc.
      destruct (Hall _ _ Hc) as [->| ->]; discriminate.
Qed.

Lemma hangOnly_trace :
  snd (lifetime withLogger 0 [] 0 hangOnly) =
  [Log (Registered "foo"); Log (ProcessingSignal "SIGINT"); AbortEvent;
   Log (ProcessingHook "foo"); Call {| name := "foo"; handler := Never |};
   Settled {| name := "foo"; handler := Never |} timeoutMarker;
   Log (TimedOut "foo");
   Log (Completed "SIGINT"); Log NotGraceful; Exit 1; Log (Exiting 1)].
Proof. vm_compute. reflexivity. Qed.

Lemma C4_hook_timeout_witness :
  let w := fst (lifetime withLogger 0 [] 0 hangOnly) in
  let tr := snd (lifetime withLogger 0 [] 0 hangOnly) in
  In (Settled {| name := "foo"; handler := Never |} timeoutMarker) tr
  /\ In (Log (TimedOut "foo")) tr
  /\ exitsOf tr = [1]
  /\ In (Log NotGraceful) tr
  /\ ~ In (Log GlobalReached) tr.
Proof.
  intros w tr.
  assert (Hin : In (Settled {| name := "foo"; handler := Never |} timeoutMarker) tr).
  { unfold tr. rewrite hangOnly_trace. simpl. auto 10. }
  destruct C4_hook_timeout as (_ & _ & _ & H).
  destruct (H withLogger 0%nat [] 0 hangOnly _ Hin) as (Hline & Hend & Hnog).
  destruct (Hend eq_refl) as [He Hw].
  split; [exact Hin|]. split; [exact (Hline eq_refl)|]. split; [exact He|].
  split; [exact (Hw eq_refl)|].
  apply Hnog. intros hk' c Hc. unfold tr in Hc. rewrite hangOnly_trace in Hc.
  simpl in Hc.
  repeat (destruct Hc as [Hc|Hc]; [try discriminate Hc; inversion Hc; auto|]).
  contradiction.
Defined.

(** ** Hook failures *)









(** ** Sequential execution *)

Lemma sequentialFrom_app a : forall s b,
  sequentialFrom s (a ++ b) =
  sequentialFrom s a && sequentialFrom (inFlightAfter s a) b.
Proof.
  induction a as [|e a IH]; intros s b; simpl; [reflexivity|].
  destruct e as [[]| | | |]; simpl; rewrite ?IH, ?andb_assoc; reflexivity.
Qed.

Lemma inFlightAfter_app a : forall s b,
  inFlightAfter s (a ++ b) = inFlightAfter (inFlightAfter s a) b.
Proof.
  induction a as [|e a IH]; intros s b; simpl; [reflexivity|].
  destruct e as [[]| | | |]; simpl; rewrite ?IH; reflexivity.
Qed.

Lemma sequentialFrom_runPart tr : forall s,
  sequentialFrom s (runPart tr) = sequentialFrom s tr.
Proof.
  induction tr as [|e tr IH]; intros s; simpl; [reflexivity|].
  destruct e as [[]| | | |]; simpl; rewrite ?IH; reflexivity.
Qed.

Lemma announcedOf_runPart tr : announcedOf (runPart tr) = announcedOf tr.
Proof. by_effect tr. Qed.

Lemma block_sequential logger hc :
  sequentialFrom false (block logger hc) = true
  /\ inFlightAfter false (block logger hc) = false.
Proof.
  destruct hc as [h c]. block_cases logger c; split; reflexivity.
Qed.

Lemma blocks_sequential logger done :
  sequentialFrom false (flat_map (block logger) done) = true
  /\ inFlightAfter false (flat_map (block logger) done) = false.
Proof.
  induction done as [|hc done [IH1 IH2]]; simpl; [split; reflexivity|].
  destruct (block_sequential logger hc) as [A B].
  rewrite sequentialFrom_app, inFlightAfter_app, A, B. split; assumption.
Qed.

Lemma announcedOf_blocks logger done :
  announcedOf (flat_map (block logger) done) =
  if logger then map name (map fst done) else [].
Proof.
  induction done as [|[h c] done IH]; simpl; [destruct logger; reflexivity|].
  unfold announcedOf in *. rewrite flat_map_app, IH.
  block_cases logger c; reflexivity.
Qed.

Lemma announced_calls logger w tr :
  Inv logger w tr ->
  announcedOf tr = if logger then map name (callsOf tr) else [].
Proof.
  intros HI. pose proof (phase_facts _ _ _ HI) as F.
  destruct (shuttingDown (this w)) eqn:Hsd.
  - destruct (phase_shape _ _ _ HI Hsd) as [s Hshape].
    rewrite <- announcedOf_runPart, <- (callsOf_runPart tr), Hshape.
    unfold announcedOf at 1. rewrite !flat_map_app.
    fold (announcedOf (flat_map (block logger) (settlementsOf tr))).
    rewrite announcedOf_blocks, !callsOf_app, callsOf_blocks, !map_app.
    destruct (suspended w) as [f|].
    + destruct (nth_error (handlers (this w)) (index f)) as [hk|];
        unfold prologue, started, emitLog; destruct logger; simpl;
        rewrite ?app_nil_r; reflexivity.
    + unfold prologue, epilogue, emitLog.
      destruct logger; destruct (existsb isFailure _); destruct (existsb isGlobal _);
        simpl; rewrite ?app_nil_r; reflexivity.
  - destruct HI as [Hl HP].
    destruct HP as [A B C D | f done hk rest Hr | s done rest A B C D E];
      [|destruct Hr; congruence|congruence].
    rewrite <- announcedOf_runPart, <- (callsOf_runPart tr), D.
    destruct logger; reflexivity.
Qed.

Lemma lifetime_sequential logger w tr :
  Inv logger w tr -> sequentialFrom false tr = true.
Proof.
  intros HI. rewrite <- sequentialFrom_runPart.
  destruct (shuttingDown (this w)) eqn:Hsd.
  - destruct (phase_shape _ _ _ HI Hsd) as [s Hshape]. rewrite Hshape.
    destruct (blocks_sequential logger (settlementsOf tr)) as [A B].
    assert (P1 : sequentialFrom false (prologue logger s) = true)
      by (unfold prologue, emitLog; destruct logger; reflexivity).
    assert (P2 : inFlightAfter false (prologue logger s) = false)
      by (unfold prologue, emitLog; destruct logger; reflexivity).
    rewrite sequentialFrom_app, P1, P2. simpl.
    rewrite sequentialFrom_app, A, B. simpl.
    destruct (suspended w) as [f|].
    + destruct (nth_error (handlers (this w)) (index f)) as [hk|]; [|reflexivity].
      unfold started, emitLog. destruct logger; reflexivity.
    + unfold epilogue, emitLog.
      destruct logger; destruct (existsb isFailure _); destruct (existsb isGlobal _);
        reflexivity.
  - destruct HI as [Hl HP].
    destruct HP as [A B C D | f done hk rest Hr | s done rest A B C D E];
      [|destruct Hr; congruence|congruence].
    rewrite D. reflexivity.
Qed.

(** C6.  In every lifetime the trace is sequential: a hook is announced and
    its handler called only when the race of the handler called before it
    has resolved (or that handler threw before a race was built).  The
    handlers called are the first entries of the registry,
    in registration order; all of them but possibly the last, which is then
    the one in flight, have completed, in the same order; and with a logger
    the processing lines name the called hooks in that order.  [addHook]
    appends at the end of the registry and so adds one to [hooksSize]. *)
Theorem C6_sequential_in_registration_order options h t now ins :
  let w := fst (lifetime options h t now ins) in
  let tr := snd (lifetime options h t now ins) in
  sequentialFrom false tr = true
  /\ (exists rest, handlers (this w) = callsOf tr ++ rest)
  /\ callsOf tr =
     map fst (settlementsOf tr)
     ++ match suspended w with
        | Some f => firstn 1 (skipn (index f) (handlers (this w)))
        | None => []
        end
  /\ announcedOf tr = (if log (this w) then map name (callsOf tr) else [])
  /\ (forall w0 n hd,
        handlers (this (fst (addHook w0 n hd)))
        = handlers (this w0) ++ [{| name := n; handler := hd |}]
        /\ hooksSize (fst (addHook w0 n hd)) = S (hooksSize w0)).
Proof.
  intros w tr.
  pose proof (lifetime_inv options h t now ins) as HI. fold w tr in HI.
  split; [eapply lifetime_sequential; exact HI|].
  split; [eapply calls_prefix; exact HI|].
  split; [apply (facts_calls _ _ _ (phase_facts _ _ _ HI))|].
  split.
  - rewrite (announced_calls _ _ _ HI). destruct HI as [-> _]. reflexivity.
  - intros w0 n hd. split; [reflexivity|].
    unfold hooksSize, addHook. simpl. rewrite length_app. simpl. lia.
Qed.

(** ** Hooks added while the sequence runs *)

(** Counterexample to C7 as worded: a hook added while the run waits for
    the first hook is announced and called by that run. *)
Lemma C7_hook_added_during_run_is_executed :
  let w0 := fst (lifetime withLogger 0 [] 0 slowHook) in
  ~ executesSnapshot w0 (Emit (EmitSignal "SIGINT")) lateHook
  /\ callsOf (snd (exec w0 (Emit (EmitSignal "SIGINT") :: lateHook))) =
     [{| name := "foo"; handler := After 100 Fulfils |};
      {| name := "late"; handler := Immediate Fulfils |}]
  /\ In (Log (ProcessingHook "late"))
        (snd (exec w0 (Emit (EmitSignal "SIGINT") :: lateHook))).
Proof.
  intros w0. split; [|split].
  - intros H. specialize (H eq_refl eq_refl eq_refl).
    vm_compute in H. discriminate H.
  - vm_compute. reflexivity.
  - vm_compute. auto 20.
Qed.

Lemma trigger_adds_nothing w i :
  shuttingDown (this w) = false ->
  shuttingDown (this (fst (step w i))) = true ->
  addedBy [i] = [].
Proof.
  intros H0 H1. destruct i; try reflexivity.
  simpl in H1. congruence.
Qed.

Lemma exec_snoc w ins i :
  exec w (ins ++ [i]) =
  (fst (step (fst (exec w ins)) i),
   snd (exec w ins) ++ snd (step (fst (exec w ins)) i)).
Proof.
  rewrite exec_app. rewrite (exec_cons _ i []). simpl. rewrite app_nil_r. reflexivity.
Qed.

(** C7 (amended).  Take a coordinator that is idle after the inputs [pre],
    a trigger it accepts, and further inputs [rest] such that the sequence
    is not at its end before the last of them and is at its end after it.
    Then, whatever inputs come later, the handlers called over the whole
    lifetime are, in order, those in the registry when the trigger was
    accepted followed by those appended by [addHook] during [rest], that is
    while the loop was still running; hooks added later are never called. *)
Theorem C7_run_follows_live_registry options h t now pre trigger rest later :
  let w0 := fst (lifetime options h t now pre) in
  let before := fst (exec w0 (removelast (trigger :: rest))) in
  let after := fst (exec w0 (trigger :: rest)) in
  shuttingDown (this w0) = false ->
  shuttingDown (this (fst (step w0 trigger))) = true ->
  (shuttingDown (this before) = false \/ suspended before <> None) ->
  suspended after = None ->
  callsOf (snd (lifetime options h t now (pre ++ trigger :: rest ++ later)))
  = handlers (this w0) ++ addedBy rest
  /\ handlers (this after) = handlers (this w0) ++ addedBy rest
  /\ callsOf (snd (exec after later)) = [].
Proof.
  intros w0 before after Hidle Hacc Hbefore Hafter.
  pose proof (lifetime_inv options h t now pre) as HI0. fold w0 in HI0.
  set (logger := log (this (construct options h t now))) in *.
  set (tr0 := snd (lifetime options h t now pre)) in *.
  assert (Hsplit : trigger :: rest = removelast (trigger :: rest) ++ [last (trigger :: rest) trigger])
    by (apply app_removelast_last; discriminate).
  set (fin := last (trigger :: rest) trigger) in *.
  set (ins1 := removelast (trigger :: rest)) in *.
  assert (HI1 : Inv logger before (tr0 ++ snd (exec w0 ins1))).
  { eapply exec_inv; [exact HI0|]. apply surjective_pairing. }
  assert (HE1 : Exhaustive before (tr0 ++ snd (exec w0 ins1))).
  { intros A B. destruct Hbefore; congruence. }
  pose proof (step_exhaustive _ _ _ fin HI1 HE1 Hbefore) as HE2.
  assert (Hexec : exec w0 (trigger :: rest) =
                  (fst (step before fin), snd (exec w0 ins1) ++ snd (step before fin))).
  { rewrite Hsplit. apply exec_snoc. }
  assert (Hafter_eq : after = fst (step before fin)).
  { unfold after. rewrite Hexec. reflexivity. }
  assert (Hsd : shuttingDown (this after) = true).
  { unfold after. rewrite exec_cons. simpl fst.
    apply (ev_latch _ _ (exec_evolves rest (fst (step w0 trigger)))). exact Hacc. }
  assert (Hreg : handlers (this after) = handlers (this w0) ++ addedBy rest).
  { unfold after. rewrite exec_handlers.
    change (trigger :: rest) with ([trigger] ++ rest).
    unfold addedBy at 1. rewrite flat_map_app.
    fold (addedBy [trigger]). fold (addedBy rest).
    rewrite (trigger_adds_nothing w0 trigger Hidle Hacc). reflexivity. }
  destruct (exec_after_completion later after Hsd Hafter) as (_ & _ & Hlater).
  assert (Hl : callsOf (snd (exec after later)) = []).
  { rewrite <- callsOf_runPart, Hlater. reflexivity. }
  split; [|split; [exact Hreg|exact Hl]].
  assert (Htr : snd (lifetime options h t now (pre ++ trigger :: rest ++ later))
                = (tr0 ++ snd (exec w0 (trigger :: rest))) ++ snd (exec after later)).
  { unfold lifetime. rewrite exec_app. cbn [snd].
    change (trigger :: rest ++ later) with ((trigger :: rest) ++ later).
    rewrite (exec_app (trigger :: rest)). cbn [snd].
    rewrite app_assoc. reflexivity. }
  rewrite Htr, Hexec. cbn [snd].
  rewrite callsOf_app, Hl, app_nil_r, app_assoc.
  rewrite <- Hreg, Hafter_eq. apply HE2; rewrite <- Hafter_eq; assumption.
Qed.

Lemma C7_run_follows_live_registry_witness :
  let all := slowHook ++ Emit (EmitSignal "SIGINT") :: lateHook
             ++ [AddHook "tooLate" (Immediate Fulfils); Resume] in
  callsOf (snd (lifetime withLogger 0 [] 0 all)) =
  [{| name := "foo"; handler := After 100 Fulfils |};
   {| name := "late"; handler := Immediate Fulfils |}].
Proof.
  intros all.
  destruct (C7_run_follows_live_registry withLogger 0%nat [] 0 slowHook
              (Emit (EmitSignal "SIGINT")) lateHook
              [AddHook "tooLate" (Immediate Fulfils); Resume]) as (H & _).
  - reflexivity.
  - reflexivity.
  - right. vm_compute. discriminate.
  - reflexivity.
  - exact H.
Defined.

(** ** The abort signal *)

Lemma abortPrecedesHooks_runPart tr :
  abortPrecedesHooks (runPart tr) = abortPrecedesHooks tr.
Proof.
  induction tr as [|e tr IH]; simpl; [reflexivity|].
  destruct e as [[]| | | |]; simpl; rewrite ?IH; reflexivity.
Qed.

Lemma lifetime_abort_first logger w tr :
  Inv logger w tr -> abortPrecedesHooks tr = true.
Proof.
  intros HI. rewrite <- abortPrecedesHooks_runPart.
  destruct (shuttingDown (this w)) eqn:Hsd.
  - destruct (phase_shape _ _ _ HI Hsd) as [s Hshape]. rewrite Hshape.
    unfold prologue, emitLog. destruct logger; reflexivity.
  - destruct HI as [Hl HP].
    destruct HP as [A B C D | f done hk rest Hr | s done rest A B C D E];
      [|destruct Hr; congruence|congruence].
    rewrite D. reflexivity.
Qed.

(** C8.  In every lifetime the abort signal is aborted exactly when the
    latch is set, and the abort event has fired once if it is and not at all
    otherwise; the event comes before any hook is announced, called or
    completed.  An accepted trigger fires it right after its first log line,
    and a second call of [abort] does nothing.  No input resets the signal,
    and the accessor returns the signal object made by the constructor, whose
    identity no input changes; the accessor is a field read. *)
Theorem C8_abort_signal_fires_once :
  (forall options h t now ins,
     let w := fst (lifetime options h t now ins) in
     let tr := snd (lifetime options h t now ins) in
     aborted (abortSignal w) = shuttingDown (this w)
     /\ abortsOf tr = (if shuttingDown (this w) then [AbortEvent] else [])
     /\ abortPrecedesHooks tr = true
     /\ handle (abortSignal w) = h)
  /\ (forall w s,
        shuttingDown (this w) = false ->
        aborted (abortSignal w) = false ->
        aborted (abortSignal (fst (processSignal w s))) = true
        /\ exists loop,
             snd (processSignal w s) =
             emitLog (log (this w)) (ProcessingSignal s) ++ AbortEvent :: loop)
  /\ (forall a, aborted a = true -> abort a = (a, []))
  /\ (forall w i,
        aborted (abortSignal w) = true ->
        aborted (abortSignal (fst (step w i))) = true)
  /\ (forall w ins,
        handle (abortSignal (fst (exec w ins))) = handle (abortSignal w)
        /\ (aborted (abortSignal w) = true ->
            aborted (abortSignal (fst (exec w ins))) = true))
  /\ (forall w, abortSignal w = abortController (this w)).
Proof.
  split; [|split; [|split; [|split; [|split]]]].
  - intros options h t now ins w tr.
    pose proof (lifetime_inv options h t now ins) as HI. fold w tr in HI.
    pose proof (phase_facts _ _ _ HI) as F.
    split; [apply (facts_aborted _ _ _ F)|].
    split; [apply (facts_aborts _ _ _ F)|].
    split; [eapply lifetime_abort_first; exact HI|].
    unfold w, lifetime, abortSignal.
    rewrite (ev_handle _ _ (exec_evolves ins (construct options h t now))).
    reflexivity.
  - intros w s Hsd Hab. unfold abortSignal in *. split.
    + rewrite processSignal_start by assumption. simpl.
      match goal with
      | |- context [runLoop ?W ?F] =>
          destruct (runLoop W F) as [w1 e1] eqn:Hrun;
          pose proof (runLoop_frame W F _ _ Hrun) as (Hthis & _ & _)
      end.
      simpl in *. rewrite Hthis. simpl. unfold abort. rewrite Hab. reflexivity.
    + rewrite processSignal_start by assumption. simpl.
      unfold abort. rewrite Hab. simpl. unfold say. eexists. reflexivity.
  - intros a Ha. unfold abort. rewrite Ha. reflexivity.
  - intros w i Ha. apply (ev_aborted _ _ (step_evolves w i)). exact Ha.
  - intros w ins. split.
    + apply (ev_handle _ _ (exec_evolves ins w)).
    + apply (ev_aborted _ _ (exec_evolves ins w)).
  - reflexivity.
Qed.

Lemma C8_abort_signal_fires_once_witness :
  let w := fst (lifetime withLogger 7 [] 0 [Emit (EmitSignal "SIGTERM")]) in
  aborted (abortSignal w) = true
  /\ aborted (abortSignal (fst (step w (Emit (EmitSignal "SIGINT"))))) = true
  /\ handle (abortSignal (fst (exec w [Disconnect; Resume]))) = 7%nat.
Proof.
  intros w.
  destruct C8_abort_signal_fires_once as (_ & _ & _ & H & H' & _).
  split; [reflexivity|]. split.
  - exact (H w (Emit (EmitSignal "SIGINT")) eq_refl).
  - rewrite (proj1 (H' w [Disconnect; Resume])). reflexivity.
Defined.

(** ** Disconnecting *)

Lemma event_eqb_refl ev : Process.event_eqb ev ev = true.
Proof. destruct ev; simpl; try reflexivity. apply String.eqb_refl. Qed.

Lemma listener_eqb_refl l : Process.listener_eqb l l = true.
Proof.
  destruct l; simpl; try reflexivity; [apply String.eqb_refl|apply Nat.eqb_refl].
Qed.

Lemma entry_eqb_refl x : Process.entry_eqb x x = true.
Proof. unfold Process.entry_eqb. rewrite event_eqb_refl, listener_eqb_refl. reflexivity. Qed.

Lemma off_absent ev l t :
  existsb (Process.entry_eqb (ev, l)) t = false -> Process.off ev l t = t.
Proof.
  induction t as [|x t IH]; simpl; [reflexivity|].
  intros H. apply orb_false_iff in H. destruct H as [H1 H2].
  rewrite H1. simpl. rewrite IH by assumption. reflexivity.
Qed.

Lemma off_present ev l a b :
  existsb (Process.entry_eqb (ev, l)) b = false ->
  Process.off ev l (a ++ (ev, l) :: b) = a ++ b.
Proof.
  intros Hb. induction a as [|x a IH]; simpl.
  - rewrite entry_eqb_refl, Hb. reflexivity.
  - rewrite existsb_app. simpl. rewrite entry_eqb_refl, orb_true_r.
    simpl. rewrite andb_false_r, IH. reflexivity.
Qed.

Lemma foreign_no_entry ev l t :
  foreignOnly t -> isForeign l = false ->
  existsb (Process.entry_eqb (ev, l)) t = false.
Proof.
  intros Hf Hl. induction Hf as [|[ev' l'] t Hx _ IH]; simpl; [reflexivity|].
  rewrite IH, orb_false_r. unfold Process.entry_eqb. simpl in *.
  destruct l; destruct l'; simpl in *; try discriminate; apply andb_false_r.
Qed.

Lemma fold_on sigs : forall t,
  fold_left (fun acc s => Process.on (OnSignal s) (ProcessSignalFn s) acc) sigs t
  = t ++ map (fun s => (OnSignal s, ProcessSignalFn s)) sigs.
Proof.
  induction sigs as [|s sigs IH]; intros t; simpl.
  - rewrite app_nil_r. reflexivity.
  - rewrite IH. unfold Process.on. rewrite <- app_assoc. reflexivity.
Qed.

Lemma filter_twice {A : Type} (p q : A -> bool) l :
  filter p (filter q l) = filter (fun x => q x && p x) l.
Proof.
  induction l as [|x l IH]; simpl; [reflexivity|].
  destruct (q x); simpl; [destruct (p x)|]; rewrite IH; reflexivity.
Qed.

Lemma fold_removeAll sigs : forall t,
  fold_left (fun acc s => Process.removeAllListeners (OnSignal s) acc) sigs t
  = filter (keep sigs) t.
Proof.
  induction sigs as [|s sigs IH]; intros t; simpl.
  - unfold keep. simpl. induction t as [|x t IHt]; simpl; [|rewrite <- IHt]; reflexivity.
  - rewrite IH. unfold Process.removeAllListeners. rewrite filter_twice.
    reflexivity.
Qed.

Lemma keep_idempotent sigs t :
  filter (keep sigs) (filter (keep sigs) t) = filter (keep sigs) t.
Proof.
  rewrite filter_twice. apply filter_ext. intros x. apply andb_diag.
Qed.

Lemma keep_signal sigs : forall s l, In s sigs -> keep sigs (OnSignal s, l) = false.
Proof.
  induction sigs as [|s' sigs IH]; intros s l Hin; [contradiction|].
  unfold keep in *. simpl in *. destruct Hin as [->|Hin].
  - rewrite String.eqb_refl. reflexivity.
  - rewrite (IH s l Hin). apply andb_false_r.
Qed.

Lemma keep_signals_none sigs :
  filter (keep sigs) (map (fun s => (OnSignal s, ProcessSignalFn s)) sigs) = [].
Proof.
  assert (H : forall l, incl l sigs ->
                        filter (keep sigs)
                               (map (fun s => (OnSignal s, ProcessSignalFn s)) l) = []).
  { induction l as [|s l IH]; intros Hincl; simpl; [reflexivity|].
    rewrite keep_signal by (apply Hincl; left; reflexivity).
    apply IH. intros x Hx. apply Hincl. right. assumption. }
  apply H. apply incl_refl.
Qed.

Lemma keep_other sigs ev l :
  (forall s, ev <> OnSignal s) -> keep sigs (ev, l) = true.
Proof.
  intros Hev. unfold keep. apply forallb_forall. intros s _. simpl.
  destruct ev; try reflexivity. exfalso. apply (Hev s0). reflexivity.
Qed.

Lemma keep_no_signal_listeners sigs s t :
  In s sigs -> Process.listenersOf (OnSignal s) (filter (keep sigs) t) = [].
Proof.
  intros Hin. unfold Process.listenersOf. rewrite filter_twice.
  induction t as [|[ev l] t IH]; simpl; [reflexivity|].
  destruct (keep sigs (ev, l)) eqn:Hk; simpl; [|assumption].
  destruct (Process.event_eqb ev (OnSignal s)) eqn:He; [|assumption].
  destruct ev; simpl in He; try discriminate.
  apply String.eqb_eq in He. subst s0.
  rewrite (keep_signal _ _ _ Hin) in Hk. discriminate.
Qed.

Lemma bind_on sm t : bind true sm t = t ++ subscriptions (signals sm).
Proof.
  unfold bind, subscriptions. cbn beta iota.
  rewrite fold_on. unfold Process.on. rewrite <- !app_assoc. reflexivity.
Qed.

Lemma foreignOnly_filter p t : foreignOnly t -> foreignOnly (filter p t).
Proof.
  unfold foreignOnly. rewrite !Forall_forall. intros H x Hx.
  apply filter_In in Hx. apply H. tauto.
Qed.

(** Disconnecting right after construction leaves the foreign listeners that
    are not on a configured signal. *)
Lemma bind_off_subscribed sm t :
  foreignOnly t ->
  bind false sm (t ++ subscriptions (signals sm)) = filter (keep (signals sm)) t.
Proof.
  intros Hf. unfold bind, subscriptions. cbn beta iota.
  rewrite off_present.
  2:{ simpl. rewrite existsb_app. simpl. apply orb_false_iff. split; [|reflexivity].
      induction (signals sm); simpl; [reflexivity|assumption]. }
  rewrite off_present.
  2:{ rewrite existsb_app. simpl. apply orb_false_iff. split; [|reflexivity].
      induction (signals sm); simpl; [reflexivity|assumption]. }
  rewrite fold_removeAll, !filter_app, keep_signals_none. simpl.
  rewrite keep_other by discriminate.
  rewrite off_present by reflexivity. apply app_nil_r.
Qed.

Lemma bind_off_foreign sm t :
  foreignOnly t ->
  bind false sm (filter (keep (signals sm)) t) = filter (keep (signals sm)) t.
Proof.
  intros Hf. pose proof (foreignOnly_filter (keep (signals sm)) t Hf) as Hff.
  unfold bind. cbn beta iota.
  rewrite (off_absent uncaughtException ProcessErrorsFn)
    by (apply foreign_no_entry; [assumption|reflexivity]).
  rewrite (off_absent unhandledRejection ProcessErrorsFn)
    by (apply foreign_no_entry; [assumption|reflexivity]).
  rewrite fold_removeAll, keep_idempotent.
  apply off_absent. apply foreign_no_entry; [assumption|reflexivity].
Qed.

Lemma step_listeners w i :
  listeners (fst (step w i)) =
  match i with
  | Disconnect => bind false (this w) (listeners w)
  | _ => listeners w
  end.
Proof.
  destruct i; simpl; try reflexivity.
  - apply callAll_evolves.
  - apply resume_frame.
Qed.

Lemma exec_table t ins : forall w,
  foreignOnly t ->
  TableInv t (signals (this w)) (listeners w) ->
  TableInv t (signals (this w)) (listeners (fst (exec w ins)))
  /\ signals (this (fst (exec w ins))) = signals (this w).
Proof.
  induction ins as [|i ins IH]; intros w Hf HT.
  - simpl. split; [assumption|reflexivity].
  - rewrite exec_cons. simpl fst.
    pose proof (ev_signals _ _ (step_evolves w i)) as Hs.
    destruct (IH (fst (step w i)) Hf) as [A B].
    + rewrite Hs, step_listeners. destruct i; try assumption.
      right. destruct HT as [-> | ->].
      * apply bind_off_subscribed. assumption.
      * apply bind_off_foreign. assumption.
    + rewrite Hs in A, B. split; assumption.
Qed.

Lemma callAll_foreign ls : forall w em,
  Forall (fun l => isForeign l = true) ls -> callAll w ls em = (w, []).
Proof.
  induction ls as [|l ls IH]; intros w em Hf; simpl; [reflexivity|].
  inversion Hf as [|? ? Hl Hls]; subst.
  destruct l; try discriminate. simpl. rewrite IH by assumption. reflexivity.
Qed.

Lemma emit_foreign w em : foreignOnly (listeners w) -> emit w em = (w, []).
Proof.
  intros Hf. unfold emit. apply callAll_foreign.
  unfold Process.listenersOf. apply Forall_map.
  apply (foreignOnly_filter _ _ Hf).
Qed.

(** C9.  The constructor appends its subscriptions to the table of the
    process: [#processErrors] on the two error events, one bound
    [#processSignal] per configured signal, and [#onExit].  Whatever
    happened to the coordinator in between, after [disconnect()] the table
    holds listeners of other code only, so that no event emitted afterwards
    (a configured signal in particular) changes the world or has any effect:
    no log line, no handler call, no exit.  A second [disconnect()] changes
    nothing, and [disconnect()] leaves the fields of the class (the registry
    and the latch among them), the suspended sequence and the clock as they
    were. *)
Theorem C9_disconnect options h t now ins :
  foreignOnly t ->
  let w := fst (lifetime options h t now ins) in
  let d := disconnect w in
  listeners (construct options h t now)
  = t ++ subscriptions (signals (this (construct options h t now)))
  /\ foreignOnly (listeners d)
  /\ (forall em, emit d em = (d, []))
  /\ (forall s, In s (signals (this w)) ->
                Process.listenersOf (OnSignal s) (listeners d) = [])
  /\ disconnect d = d
  /\ this d = this w
  /\ suspended d = suspended w
  /\ clock d = clock w.
Proof.
  intros Hf w d.
  set (w0 := construct options h t now).
  assert (H0 : listeners w0 = t ++ subscriptions (signals (this w0))).
  { unfold w0, construct. cbn [listeners this]. rewrite bind_on. reflexivity. }
  destruct (exec_table t ins w0 Hf (or_introl H0)) as [HT Hs].
  change (fst (exec w0 ins)) with w in HT, Hs.
  assert (Hd : listeners d = filter (keep (signals (this w))) t).
  { unfold d, disconnect, with_listeners. cbn [listeners]. rewrite <- Hs in HT.
    destruct HT as [E | E]; rewrite E;
      [apply bind_off_subscribed|apply bind_off_foreign]; assumption. }
  assert (Hfd : foreignOnly (listeners d)).
  { rewrite Hd. apply foreignOnly_filter. assumption. }
  split; [exact H0|]. split; [exact Hfd|].
  split; [intros em; apply emit_foreign; exact Hfd|].
  split.
  { intros s Hin. rewrite Hd. apply keep_no_signal_listeners. assumption. }
  split.
  { assert (Hb : bind false (this d) (listeners d) = listeners d).
    { change (this d) with (this w). rewrite Hd. apply bind_off_foreign. assumption. }
    unfold disconnect at 1. unfold with_listeners. rewrite Hb.
    destruct d; reflexivity. }
  repeat split.
Qed.

Lemma C9_disconnect_witness :
  let w := fst (lifetime withLogger 0 [(OnSignal "SIGINT", ForeignFn 1); (exit, ForeignFn 2)] 0
                  [AddHook "foo" Never]) in
  foreignOnly [(OnSignal "SIGINT", ForeignFn 1); (exit, ForeignFn 2)]
  /\ emit (disconnect w) (EmitSignal "SIGINT") = (disconnect w, [])
  /\ disconnect (disconnect w) = disconnect w
  /\ this (disconnect w) = this w.
Proof.
  intros w.
  assert (Hf : foreignOnly [(OnSignal "SIGINT", ForeignFn 1); (exit, ForeignFn 2)])
    by (repeat constructor).
  destruct (C9_disconnect withLogger 0%nat _ 0 [AddHook "foo" Never] Hf)
    as (_ & _ & He & _ & Hi & Ht & _).
  split; [exact Hf|]. split; [apply He|]. split; [exact Hi|exact Ht].
Defined.

(** ** The context of the two error lines *)

(** C10.  [#processErrors] logs its line first, at error level, with the
    thrown value itself as context when [typeof] gives "object" (so for
    [null], plain objects and errors) and with the value wrapped under the
    key [error] otherwise.  The catch block of the loop logs the unsuccessful
    line at error level with the error itself as context only when it is an
    instance of [Error], and wrapped otherwise: a plain object and [null] are
    wrapped, and a rejection without a reason is logged as [{ error:
    undefined }], as in the run where one hook rejects that way. *)
Theorem C10_error_contexts :
  (forall w e,
     snd (processErrors w e) =
     emitLog (log (this w)) (Uncaught e) ++ snd (processSignal w "SIGUSR2"))
  /\ (forall e,
        render (Uncaught e) =
        {| level := LevelError;
           args := [(if String.eqb (typeof e) "object" then e else Object [("error", e)]);
                    Str "Uncaught/Unhandled"] |})
  /\ (uncaughtContext Null = Null
      /\ (forall fs, uncaughtContext (Object fs) = Object fs)
      /\ (forall m, uncaughtContext (ErrorObject m) = ErrorObject m)
      /\ (forall e, typeof e <> "object" -> uncaughtContext e = Object [("error", e)]))
  /\ (forall sm hk e f,
        snd (afterRace sm hk (Thrown e) f) = emitLog (log sm) (Unsuccessful (name hk) e))
  /\ (forall n e,
        render (Unsuccessful n e) =
        {| level := LevelError;
           args := [(if instanceofError e then e else Object [("error", e)]);
                    Str ("Unsuccessful " ++ quoted n ++ " hook")] |})
  /\ ((forall m, hookErrorContext (ErrorObject m) = ErrorObject m)
      /\ (forall e, instanceofError e = false ->
                    hookErrorContext e = Object [("error", e)])
      /\ (forall fs, hookErrorContext (Object fs) = Object [("error", Object fs)])
      /\ hookErrorContext Null = Object [("error", Null)]
      /\ hookErrorContext Undefined = Object [("error", Undefined)])
  /\ In {| level := LevelError;
           args := [Object [("error", Undefined)];
                    Str ("Unsuccessful " ++ quoted "foo" ++ " hook")] |}
        (logCalls (snd (lifetime withLogger 0 [] 0 rejectNoReason))).
Proof.
  split; [|split; [|split; [|split; [|split; [|split]]]]].
  - intros w e. unfold processErrors.
    destruct (processSignal w "SIGUSR2") as [w1 e1]. reflexivity.
  - reflexivity.
  - repeat split.
    intros e He. unfold uncaughtContext.
    destruct (String.eqb (typeof e) "object") eqn:E; [|reflexivity].
    apply String.eqb_eq in E. contradiction.
  - reflexivity.
  - reflexivity.
  - repeat split. intros e He. unfold hookErrorContext. rewrite He. reflexivity.
  - vm_compute. auto 10.
Qed.

Lemma C10_error_contexts_witness :
  uncaughtContext (Str "boom") = Object [("error", Str "boom")]
  /\ hookErrorContext (Number 3) = Object [("error", Number 3)].
Proof.
  destruct C10_error_contexts as (_ & _ & (_ & _ & _ & Hu) & _ & _ & (_ & Hh & _) & _).
  split.
  - apply Hu. discriminate.
  - apply Hh. reflexivity.
Defined.

(** ** The runs of the repository's test suite

    The log calls the tests expect, with the line of [#onExit] at the end,
    which the tests do not see because they replace [process.exit]. *)

Example test_no_hook :
  logCalls (snd (lifetime withLogger 0 [] 0 [Emit (EmitSignal "SIGINT")])) =
  [render (ProcessingSignal "SIGINT"); render (Completed "SIGINT"); render (Exiting 0)].
Proof. vm_compute. reflexivity. Qed.

Example test_ignore_second_signal :
  snd (lifetime withLogger 0 [] 0
         [AddHook "foo" (Immediate Fulfils);
          Emit (EmitSignal "SIGINT"); Emit (EmitSignal "SIGINT"); Resume]) =
  [Log (Registered "foo"); Log (ProcessingSignal "SIGINT"); AbortEvent;
   Log (ProcessingHook "foo"); Call {| name := "foo"; handler := Immediate Fulfils |};
   Log (Ignoring "SIGINT");
   Settled {| name := "foo"; handler := Immediate Fulfils |} (Normal Undefined);
   Log (Successful "foo"); Log (Completed "SIGINT"); Exit 0; Log (Exiting 0)].
Proof. vm_compute. reflexivity. Qed.

Example test_timeout_then_resolve :
  snd (lifetime withLogger 0 [] 0
         [AddHook "foo" Never; AddHook "bar" (Immediate Fulfils);
          Emit (EmitSignal "SIGINT"); Resume; Resume]) =
  [Log (Registered "foo"); Log (Registered "bar");
   Log (ProcessingSignal "SIGINT"); AbortEvent;
   Log (ProcessingHook "foo"); Call {| name := "foo"; handler := Never |};
   Settled {| name := "foo"; handler := Never |} timeoutMarker;
   Log (TimedOut "foo");
   Log (ProcessingHook "bar"); Call {| name := "bar"; handler := Immediate Fulfils |};
   Settled {| name := "bar"; handler := Immediate Fulfils |} (Normal Undefined);
   Log (Successful "bar");
   Log (Completed "SIGINT"); Log NotGraceful; Exit 1; Log (Exiting 1)].
Proof. vm_compute. reflexivity. Qed.

(** Entries due at the same instant.  With the default timeouts and two
    hooks that never settle, the per-hook timer of the second hook is due
    when the shared timer is; the shared timer, armed first, settles first,
    so the second hook is not reported and the global warning is logged. *)
Lemma race_tie_shared_timer now h perHook global :
  now < global -> global <= perHook ->
  (h = Never \/ exists d o, h = After d o /\ global <= now + Z.max 0 d) ->
  race now h perHook global = (global, globalMarker).
Proof.
  intros H1 H2 Hh. unfold race, globalMarker.
  assert (A : (global <=? now) = false) by (apply Z.leb_gt; lia).
  assert (B : (perHook <? global) = false) by (apply Z.ltb_ge; lia).
  destruct Hh as [->|(d & o & -> & Hd)].
  - rewrite A, B. reflexivity.
  - assert (C : (now + Z.max 0 d <? global) = false) by (apply Z.ltb_ge; lia).
    rewrite A, B, C, andb_false_r. reflexivity.
Qed.

Example two_hanging_hooks_by_default :
  snd (lifetime withLogger 0 [] 0
         [AddHook "foo" Never; AddHook "bar" Never;
          Emit (EmitSignal "SIGINT"); Resume; Resume]) =
  [Log (Registered "foo"); Log (Registered "bar");
   Log (ProcessingSignal "SIGINT"); AbortEvent;
   Log (ProcessingHook "foo"); Call {| name := "foo"; handler := Never |};
   Settled {| name := "foo"; handler := Never |} timeoutMarker;
   Log (TimedOut "foo");
   Log (ProcessingHook "bar"); Call {| name := "bar"; handler := Never |};
   Settled {| name := "bar"; handler := Never |} globalMarker;
   Log (Completed "SIGINT"); Log NotGraceful; Log GlobalReached;
   Exit 1; Log (Exiting 1)].
Proof. vm_compute. reflexivity. Qed.

Example test_default_subscriptions :
  listeners (construct None 0 [] 0) =
  [(uncaughtException, ProcessErrorsFn); (unhandledRejection, ProcessErrorsFn);
   (OnSignal "SIGINT", ProcessSignalFn "SIGINT");
   (OnSignal "SIGTERM", ProcessSignalFn "SIGTERM");
   (OnSignal "SIGABRT", ProcessSignalFn "SIGABRT");
   (OnSignal "SIGUSR2", ProcessSignalFn "SIGUSR2");
   (exit, OnExitFn)].
Proof. reflexivity. Qed.

(** * Further properties of the class *)

(** ** The constructor and the routing of events *)

Lemma exec_listeners_connected ins : forall w,
  neverDisconnected ins = true ->
  listeners (fst (exec w ins)) = listeners w.
Proof.
  induction ins as [|i ins IH]; intros w H; [reflexivity|].
  simpl in H. apply andb_true_iff in H. destruct H as [Hi H].
  rewrite exec_cons. simpl fst. rewrite IH by assumption.
  rewrite step_listeners. destruct i; try reflexivity. discriminate.
Qed.

Lemma connected_listeners options h t now ins :
  neverDisconnected ins = true ->
  listeners (fst (lifetime options h t now ins))
  = t ++ subscriptions (signals (this (fst (lifetime options h t now ins)))).
Proof.
  intros H. unfold lifetime.
  rewrite exec_listeners_connected by assumption.
  rewrite (ev_signals _ _ (exec_evolves ins (construct options h t now))).
  unfold construct. cbn [listeners this]. rewrite bind_on. reflexivity.
Qed.

Lemma listenersOf_app ev a b :
  Process.listenersOf ev (a ++ b) = Process.listenersOf ev a ++ Process.listenersOf ev b.
Proof. unfold Process.listenersOf. rewrite filter_app, map_app. reflexivity. Qed.

Lemma listenersOf_foreign ev t :
  foreignOnly t -> Forall (fun l => isForeign l = true) (Process.listenersOf ev t).
Proof.
  intros Hf. unfold Process.listenersOf. apply Forall_map.
  apply (foreignOnly_filter _ _ Hf).
Qed.

Lemma callAll_app a : forall w b em,
  callAll w (a ++ b) em =
  (fst (callAll (fst (callAll w a em)) b em),
   snd (callAll w a em) ++ snd (callAll (fst (callAll w a em)) b em)).
Proof.
  induction a as [|l a IH]; intros w b em; simpl.
  - destruct (callAll w b em); reflexivity.
  - destruct (callListener w l em) as [w1 e1]. rewrite IH.
    destruct (callAll w1 a em) as [w2 e2]. simpl.
    destruct (callAll w2 b em) as [w3 e3]. simpl. rewrite app_assoc. reflexivity.
Qed.

(** On a connected coordinator an emission reaches the listeners the
    constructor subscribed; the listeners of other code do nothing to it. *)
Lemma emit_connected w t em :
  foreignOnly t ->
  listeners w = t ++ subscriptions (signals (this w)) ->
  emit w em =
  callAll w (Process.listenersOf (eventOf em) (subscriptions (signals (this w)))) em.
Proof.
  intros Hf Hl. unfold emit. rewrite Hl, listenersOf_app, callAll_app.
  rewrite (callAll_foreign _ w em (listenersOf_foreign _ _ Hf)). simpl.
  destruct (callAll w _ em); reflexivity.
Qed.

Lemma signal_entries_other ev sigs :
  (forall s, ev <> OnSignal s) ->
  Process.listenersOf ev (map (fun s => (OnSignal s, ProcessSignalFn s)) sigs) = [].
Proof.
  intros Hev. unfold Process.listenersOf.
  induction sigs as [|s sigs IH]; simpl; [reflexivity|].
  destruct ev; simpl; try assumption. exfalso. apply (Hev s0). reflexivity.
Qed.

Lemma signal_entries s sigs :
  Process.listenersOf (OnSignal s) (map (fun s' => (OnSignal s', ProcessSignalFn s')) sigs)
  = map ProcessSignalFn (filter (fun s' => String.eqb s' s) sigs).
Proof.
  unfold Process.listenersOf.
  induction sigs as [|s' sigs IH]; simpl; [reflexivity|].
  destruct (String.eqb s' s); simpl; rewrite IH; reflexivity.
Qed.

Lemma subscriptions_listeners ev sigs :
  Process.listenersOf ev (subscriptions sigs) =
  match ev with
  | uncaughtException => [ProcessErrorsFn]
  | unhandledRejection => [ProcessErrorsFn]
  | exit => [OnExitFn]
  | OnSignal s => map ProcessSignalFn (filter (fun s' => String.eqb s' s) sigs)
  end.
Proof.
  unfold subscriptions.
  change ((uncaughtException, ProcessErrorsFn)
          :: (unhandledRejection, ProcessErrorsFn)
          :: map (fun s => (OnSignal s, ProcessSignalFn s)) sigs ++ [(exit, OnExitFn)])
    with ([(uncaughtException, ProcessErrorsFn); (unhandledRejection, ProcessErrorsFn)]
          ++ map (fun s => (OnSignal s, ProcessSignalFn s)) sigs ++ [(exit, OnExitFn)]).
  rewrite !listenersOf_app.
  destruct ev.
  - rewrite signal_entries_other by discriminate. reflexivity.
  - rewrite signal_entries_other by discriminate. reflexivity.
  - rewrite signal_entries_other by discriminate. reflexivity.
  - rewrite signal_entries. simpl. rewrite app_nil_r. reflexivity.
Qed.

Lemma filter_absent s sigs :
  ~ In s sigs -> filter (fun s' => String.eqb s' s) sigs = [].
Proof.
  induction sigs as [|s' sigs IH]; intros Hn; simpl; [reflexivity|].
  destruct (String.eqb s' s) eqn:E.
  - apply String.eqb_eq in E. subst. exfalso. apply Hn. left. reflexivity.
  - apply IH. intros Hin. apply Hn. right. assumption.
Qed.

Lemma filter_once s sigs :
  NoDup sigs -> In s sigs -> filter (fun s' => String.eqb s' s) sigs = [s].
Proof.
  induction 1 as [|s' sigs Hnotin Hnd IH]; intros Hin; [contradiction|].
  simpl. destruct (String.eqb s' s) eqn:E.
  - apply String.eqb_eq in E. subst s'.
    rewrite filter_absent by assumption. reflexivity.
  - destruct Hin as [->|Hin]; [rewrite String.eqb_refl in E; discriminate|].
    apply IH. assumption.
Qed.

Lemma callAll_one w l em : callAll w [l] em = callListener w l em.
Proof.
  simpl. destruct (callListener w l em) as [w1 e1]. rewrite app_nil_r. reflexivity.
Qed.

(** X1.  The constructor leaves the listeners that are already on the
    process in place and appends its own after them: [#processErrors] on the
    two error events, one bound [#processSignal] per entry of [signals], and
    [#onExit], that is [|signals| + 3] listeners.  On every event the
    coordinator's listeners are therefore called after those already there.
    The new coordinator has no hook, is not shutting down and its abort
    signal has not fired. *)
Theorem X1_constructor_subscribes options h t now :
  let w := construct options h t now in
  listeners w = t ++ subscriptions (signals (this w))
  /\ List.length (listeners w) = (List.length t + (List.length (signals (this w)) + 3))%nat
  /\ (forall ev,
        Process.listenersOf ev (listeners w) =
        Process.listenersOf ev t
        ++ match ev with
           | uncaughtException => [ProcessErrorsFn]
           | unhandledRejection => [ProcessErrorsFn]
           | exit => [OnExitFn]
           | OnSignal s =>
               map ProcessSignalFn (filter (fun s' => String.eqb s' s) (signals (this w)))
           end)
  /\ hooksSize w = 0%nat
  /\ shuttingDown (this w) = false
  /\ aborted (abortSignal w) = false
  /\ suspended w = None.
Proof.
  intros w.
  assert (H : listeners w = t ++ subscriptions (signals (this w))).
  { unfold w, construct. cbn [listeners this]. rewrite bind_on. reflexivity. }
  split; [exact H|]. split; [|split].
  - rewrite H, length_app. unfold subscriptions. simpl.
    rewrite length_app, length_map. simpl. lia.
  - intros ev. rewrite H, listenersOf_app, subscriptions_listeners. reflexivity.
  - repeat split.
Qed.

(** X3.  On a coordinator that was never disconnected, a signal that is not
    among the configured ones has no effect at all, and a configured signal
    (configured once) is exactly one call of [#processSignal] with that
    signal's name; in general the emission calls [#processSignal] once per
    occurrence of the signal in [signals]. *)
Theorem X3_signal_routing options h t now ins s :
  foreignOnly t ->
  neverDisconnected ins = true ->
  let w := fst (lifetime options h t now ins) in
  emit w (EmitSignal s) =
  callAll w (map ProcessSignalFn (filter (fun s' => String.eqb s' s) (signals (this w))))
          (EmitSignal s)
  /\ (~ In s (signals (this w)) -> emit w (EmitSignal s) = (w, []))
  /\ (NoDup (signals (this w)) -> In s (signals (this w)) ->
      emit w (EmitSignal s) = processSignal w s).
Proof.
  intros Hf Hc w.
  pose proof (connected_listeners options h t now ins Hc) as Hl. fold w in Hl.
  assert (E : emit w (EmitSignal s) =
              callAll w (map ProcessSignalFn
                             (filter (fun s' => String.eqb s' s) (signals (this w))))
                      (EmitSignal s)).
  { rewrite (emit_connected w t _ Hf Hl). simpl eventOf.
    rewrite subscriptions_listeners. reflexivity. }
  split; [exact E|]. split.
  - intros Hn. rewrite E, filter_absent by assumption. reflexivity.
  - intros Hnd Hin. rewrite E, filter_once by assumption. simpl map.
    rewrite callAll_one. reflexivity.
Qed.

Lemma X3_signal_routing_witness :
  let w := fst (lifetime withLogger 0 [(OnSignal "SIGHUP", ForeignFn 1)] 0
                  [AddHook "foo" Never]) in
  emit w (EmitSignal "SIGHUP") = (w, [])
  /\ emit w (EmitSignal "SIGTERM") = processSignal w "SIGTERM".
Proof.
  intros w.
  assert (Hf : foreignOnly [(OnSignal "SIGHUP", ForeignFn 1)]) by (repeat constructor).
  split.
  - destruct (X3_signal_routing withLogger 0%nat _ 0 [AddHook "foo" Never] "SIGHUP"
                Hf eq_refl) as (_ & H & _).
    apply H. simpl. intros [E|[E|[E|[E|[]]]]]; discriminate E.
  - destruct (X3_signal_routing withLogger 0%nat _ 0 [AddHook "foo" Never] "SIGTERM"
                Hf eq_refl) as (_ & _ & H).
    apply H.
    + repeat constructor; simpl; intuition discriminate.
    + simpl. auto.
Defined.

Lemma runLoop_keeps_frame w f f' :
  suspended (fst (runLoop w f)) = Some f' ->
  signal f' = signal f /\ globalTimeout f' = globalTimeout f.
Proof.
  unfold runLoop.
  destruct (forOf (this w) (skipn (index f) (handlers (this w))) f) as [st e1] eqn:Hfor.
  destruct (forOf_run _ _ _ _ _ Hfor) as [thrown [_ Hst]].
  destruct st as [f1|f1]; cbv beta iota in Hst.
  - destruct Hst as (hk & rest' & _ & _ & _ & (A & B & _)).
    simpl. intros H. inversion H; subst. split; assumption.
  - unfold finish. simpl. discriminate.
Qed.

(** X4.  On a coordinator that was never disconnected, an uncaught
    exception and an unhandled rejection are both one call of
    [#processErrors].  When the coordinator is idle this logs the error,
    then starts the shutdown sequence under the name SIGUSR2, whether or not
    SIGUSR2 is among the configured signals: the latch is set, the abort
    signal fires, and the suspended sequence carries SIGUSR2. *)
Theorem X4_errors_trigger_shutdown options h t now ins e :
  foreignOnly t ->
  neverDisconnected ins = true ->
  let w := fst (lifetime options h t now ins) in
  emit w (EmitUncaughtException e) = processErrors w e
  /\ emit w (EmitUnhandledRejection e) = processErrors w e
  /\ (shuttingDown (this w) = false ->
      shuttingDown (this (fst (processErrors w e))) = true
      /\ (exists loop,
            snd (processErrors w e) =
            emitLog (log (this w)) (Uncaught e)
            ++ emitLog (log (this w)) (ProcessingSignal "SIGUSR2")
            ++ AbortEvent :: loop)
      /\ (forall f, suspended (fst (processErrors w e)) = Some f ->
                    signal f = "SIGUSR2")).
Proof.
  intros Hf Hc w.
  pose proof (connected_listeners options h t now ins Hc) as Hl. fold w in Hl.
  split; [|split].
  - rewrite (emit_connected w t _ Hf Hl). simpl eventOf.
    rewrite subscriptions_listeners, callAll_one. reflexivity.
  - rewrite (emit_connected w t _ Hf Hl). simpl eventOf.
    rewrite subscriptions_listeners, callAll_one. reflexivity.
  - intros Hsd.
    pose proof (lifetime_inv options h t now ins) as HI. fold w in HI.
    pose proof (facts_aborted _ _ _ (phase_facts _ _ _ HI)) as Hab.
    rewrite Hsd in Hab.
    assert (Hfst : fst (processErrors w e) = fst (processSignal w "SIGUSR2")).
    { unfold processErrors. destruct (processSignal w "SIGUSR2"); reflexivity. }
    assert (Hsnd : snd (processErrors w e) =
                   say (this w) (Uncaught e) ++ snd (processSignal w "SIGUSR2")).
    { unfold processErrors. destruct (processSignal w "SIGUSR2"); reflexivity. }
    rewrite Hfst, Hsnd. split; [apply processSignal_accepts; assumption|].
    rewrite processSignal_start by assumption. cbn [fst snd]. split.
    + unfold abort. rewrite Hab. simpl. unfold say. eexists. reflexivity.
    + intros f Hsus. apply runLoop_keeps_frame in Hsus. apply Hsus.
Qed.

Lemma X4_errors_trigger_shutdown_witness :
  let opts := Some {| opt_signals := Some ["SIGINT"]; opt_log := true;
                      opt_perHookTimeout := None; opt_shutdownTimeout := None |} in
  let w := fst (lifetime opts 0 [] 0 [AddHook "foo" Never]) in
  emit w (EmitUnhandledRejection (Str "boom")) = processErrors w (Str "boom")
  /\ shuttingDown (this (fst (processErrors w (Str "boom")))) = true.
Proof.
  intros opts w.
  destruct (X4_errors_trigger_shutdown opts 0%nat [] 0 [AddHook "foo" Never] (Str "boom"))
    as (_ & H1 & H2).
  - constructor.
  - reflexivity.
  - split; [exact H1|]. destruct (H2 eq_refl) as [H _]. exact H.
Defined.

(** ** The registry *)

Lemma registeredOf_app a b : registeredOf (a ++ b) = registeredOf a ++ registeredOf b.
Proof. apply flat_map_app. Qed.

Lemma registeredOf_run tr :
  Forall (fun e => isRunEffect e = true \/ exists c, e = Log (Exiting c)) tr ->
  registeredOf tr = [].
Proof.
  induction 1 as [|e tr He _ IH]; [reflexivity|].
  unfold registeredOf in *. simpl. rewrite IH, app_nil_r.
  destruct He as [He|[c ->]]; [|reflexivity].
  destruct e as [[]| | | |]; try reflexivity; discriminate.
Qed.

Lemma process_exit_effects w code :
  Forall (fun e => isRunEffect e = true \/ exists c, e = Log (Exiting c))
         (process_exit w code).
Proof.
  unfold process_exit. constructor; [left; reflexivity|].
  induction (Process.listenersOf exit (listeners w)) as [|l ls IH]; simpl; [constructor|].
  apply Forall_app. split; [|assumption].
  destruct l; try constructor.
  unfold onExit, say, emitLog. destruct (log (this w)); [|constructor].
  constructor; [|constructor]. right. eexists. reflexivity.
Qed.

Lemma Forall_run_or_exit tr :
  Forall (fun e => isRunEffect e = true) tr ->
  Forall (fun e => isRunEffect e = true \/ exists c, e = Log (Exiting c)) tr.
Proof. apply Forall_impl. intros e H. left. exact H. Qed.

Lemma forOf_effects_run sm rest f :
  Forall (fun e => isRunEffect e = true) (snd (forOf sm rest f)).
Proof.
  destruct (forOf sm rest f) as [st effs] eqn:Hfor.
  destruct (forOf_run _ _ _ _ _ Hfor) as [thrown [_ Hst]]. simpl.
  destruct st as [f'|f']; cbv beta iota in Hst.
  - destruct Hst as (hk & rest' & _ & _ & -> & _).
    apply Forall_app. split; [apply blocks_run|apply started_run].
  - destruct Hst as (_ & -> & _). apply blocks_run.
Qed.

(** The effects of the loop and of what follows it are the run's own, but
    for the lines of the exit listeners. *)
Lemma runLoop_effects w f :
  Forall (fun e => isRunEffect e = true \/ exists c, e = Log (Exiting c))
         (snd (runLoop w f)).
Proof.
  unfold runLoop.
  pose proof (forOf_effects_run (this w) (skipn (index f) (handlers (this w))) f) as H.
  destruct (forOf (this w) (skipn (index f) (handlers (this w))) f) as [[f'|f'] e1];
    simpl in *.
  - apply Forall_run_or_exit. assumption.
  - apply Forall_app. split; [apply Forall_run_or_exit; assumption|].
    repeat (apply Forall_app; split); try apply process_exit_effects;
      apply Forall_run_or_exit.
    + apply emitLog_run. reflexivity.
    + destruct (withError f'); [apply emitLog_run; reflexivity|constructor].
    + destruct (forceExit f'); [apply emitLog_run; reflexivity|constructor].
Qed.

Lemma registeredOf_emitLog logger l :
  (forall n, l <> Registered n) -> registeredOf (emitLog logger l) = [].
Proof.
  intros H. destruct logger; [|reflexivity].
  destruct l; try reflexivity. exfalso. apply (H hook). reflexivity.
Qed.

Lemma processSignal_registers_nothing w s : registeredOf (snd (processSignal w s)) = [].
Proof.
  destruct (shuttingDown (this w)) eqn:Hsd.
  - rewrite processSignal_guard by assumption. simpl.
    apply registeredOf_emitLog. discriminate.
  - rewrite processSignal_start by assumption. cbn [snd].
    rewrite !registeredOf_app, (registeredOf_run _ (runLoop_effects _ _)).
    unfold say. rewrite registeredOf_emitLog by discriminate.
    unfold abort. destruct (aborted (abortController (this w))); reflexivity.
Qed.

Lemma callListener_registers_nothing w l em :
  registeredOf (snd (callListener w l em)) = [].
Proof.
  unfold callListener, processErrors, onExit.
  destruct l; destruct em; try reflexivity; try apply processSignal_registers_nothing.
  - pose proof (processSignal_registers_nothing w "SIGUSR2") as H.
    destruct (processSignal w "SIGUSR2"). cbn [snd] in *.
    rewrite registeredOf_app, H. unfold say.
    rewrite registeredOf_emitLog by discriminate. reflexivity.
  - pose proof (processSignal_registers_nothing w "SIGUSR2") as H.
    destruct (processSignal w "SIGUSR2"). cbn [snd] in *.
    rewrite registeredOf_app, H. unfold say.
    rewrite registeredOf_emitLog by discriminate. reflexivity.
  - cbn [snd]. unfold say. apply registeredOf_emitLog. discriminate.
Qed.

Lemma callAll_registers_nothing ls : forall w em,
  registeredOf (snd (callAll w ls em)) = [].
Proof.
  induction ls as [|l ls IH]; intros w em; simpl; [reflexivity|].
  pose proof (callListener_registers_nothing w l em) as H.
  destruct (callListener w l em) as [w1 e1]. cbn [snd] in H.
  specialize (IH w1 em). destruct (callAll w1 ls em) as [w2 e2]. cbn [snd] in *.
  rewrite registeredOf_app, H, IH. reflexivity.
Qed.

Lemma resume_registers_nothing w : registeredOf (snd (resume w)) = [].
Proof.
  unfold resume. destruct (suspended w) as [f|]; [|reflexivity].
  destruct (nth_error (handlers (this w)) (index f)) as [hk|]; [|reflexivity].
  destruct (race _ _ _ _) as [tm c].
  pose proof (afterRace_effects (this w) hk c f) as He.
  destruct (afterRace (this w) hk c f) as [f1 e1]. cbn [snd] in He.
  pose proof (runLoop_effects (with_clock w tm) (next f1)) as Hr.
  destruct (runLoop (with_clock w tm) (next f1)) as [w1 e2]. cbn [snd] in *.
  change (Settled hk c :: e1 ++ e2) with ([Settled hk c] ++ e1 ++ e2).
  rewrite !registeredOf_app, (registeredOf_run _ Hr), He.
  rewrite (registeredOf_run (report _ _ _)); [reflexivity|].
  apply Forall_run_or_exit, report_run.
Qed.

Lemma step_registered w i :
  registeredOf (snd (step w i)) =
  if log (this w) then map name (addedBy [i]) else [].
Proof.
  destruct i; simpl.
  - unfold say, emitLog. destruct (log (this w)); reflexivity.
  - destruct (log (this w)); reflexivity.
  - fold (emit w em). unfold emit. rewrite callAll_registers_nothing.
    destruct (log (this w)); reflexivity.
  - rewrite resume_registers_nothing. destruct (log (this w)); reflexivity.
Qed.

Lemma exec_registered ins : forall w,
  registeredOf (snd (exec w ins)) =
  if log (this w) then map name (addedBy ins) else [].
Proof.
  induction ins as [|i ins IH]; intros w.
  - simpl. destruct (log (this w)); reflexivity.
  - rewrite exec_cons. cbn [snd]. rewrite registeredOf_app, IH, step_registered.
    rewrite (ev_log _ _ (step_evolves w i)).
    destruct (log (this w)); [|reflexivity].
    rewrite <- map_app. f_equal. unfold addedBy. simpl. rewrite app_nil_r. reflexivity.
Qed.

(** X2.  Over a whole lifetime the registry is exactly the hooks passed to
    [addHook], in the order of the calls: nothing else adds a hook, nothing
    ever removes or reorders one (neither shutting down nor disconnecting),
    so [hooksSize] counts the calls of [addHook].  With a logger the
    registration lines name the registry in order, and no other operation
    logs such a line. *)
Theorem X2_registry_is_the_hooks_added options h t now ins :
  let w := fst (lifetime options h t now ins) in
  let tr := snd (lifetime options h t now ins) in
  handlers (this w) = addedBy ins
  /\ hooksSize w = List.length (addedBy ins)
  /\ registeredOf tr = if log (this w) then map name (handlers (this w)) else [].
Proof.
  intros w tr.
  assert (H : handlers (this w) = addedBy ins).
  { unfold w, lifetime. rewrite exec_handlers. reflexivity. }
  split; [exact H|]. split; [unfold hooksSize; rewrite H; reflexivity|].
  unfold tr, lifetime. rewrite exec_registered, H.
  unfold w, lifetime.
  rewrite (ev_log _ _ (exec_evolves ins (construct options h t now))). reflexivity.
Qed.

(** ** Triggers that run to the end without suspending *)

Lemma exitsOf_emitLog logger l : exitsOf (emitLog logger l) = [].
Proof. destruct logger; reflexivity. Qed.

Lemma exitsOf_forOf sm rest f : exitsOf (snd (forOf sm rest f)) = [].
Proof.
  destruct (forOf sm rest f) as [st effs] eqn:Hfor.
  destruct (forOf_run _ _ _ _ _ Hfor) as [thrown [_ Hst]]. simpl.
  destruct st as [f'|f']; cbv beta iota in Hst.
  - destruct Hst as (hk & rest' & _ & _ & -> & _).
    rewrite exitsOf_app, exitsOf_blocks. unfold started.
    rewrite exitsOf_app, exitsOf_emitLog. reflexivity.
  - destruct Hst as (_ & -> & _). apply exitsOf_blocks.
Qed.

Lemma exitsOf_start w s effs :
  exitsOf (say (this w) (ProcessingSignal s)
           ++ snd (abort (abortController (this w))) ++ effs)
  = exitsOf effs.
Proof.
  rewrite !exitsOf_app. unfold say. rewrite exitsOf_emitLog.
  unfold abort. destruct (aborted (abortController (this w))); reflexivity.
Qed.

Lemma callsOf_start w s effs :
  callsOf (say (this w) (ProcessingSignal s)
           ++ snd (abort (abortController (this w))) ++ effs)
  = callsOf effs.
Proof.
  rewrite !callsOf_app. unfold say. rewrite callsOf_emitLog.
  unfold abort. destruct (aborted (abortController (this w))); reflexivity.
Qed.

Lemma forOf_first_returning sm pre hk post : forall f,
  Forall throwsSync pre -> ~ throwsSync hk ->
  exists f',
    fst (forOf sm (pre ++ hk :: post) f) = Pending f'
    /\ index f' = (index f + List.length pre)%nat
    /\ callsOf (snd (forOf sm (pre ++ hk :: post) f)) = pre ++ [hk].
Proof.
  induction pre as [|p pre IH]; intros f Hall Hhk.
  - cbn [app]. rewrite forOf_cons.
    assert (E : match handler hk with
                | Throws e =>
                    let '(f', effs) := afterRace sm hk (Thrown e) f in
                    let '(st, effs') := forOf sm post (next f') in
                    (st, (say sm (ProcessingHook (name hk)) ++ [Call hk])
                         ++ Settled hk (Thrown e) :: effs ++ effs')
                | _ => (Pending f, say sm (ProcessingHook (name hk)) ++ [Call hk])
                end = (Pending f, say sm (ProcessingHook (name hk)) ++ [Call hk])).
    { destruct (handler hk) eqn:Hh; try reflexivity.
      exfalso. apply Hhk. eexists. exact Hh. }
    rewrite E. exists f. cbn [fst snd List.length].
    split; [reflexivity|]. split; [lia|].
    rewrite callsOf_app. unfold say. rewrite callsOf_emitLog. reflexivity.
  - inversion Hall as [|? ? [e He] Hrest]; subst.
    cbn [app]. rewrite forOf_cons, He. cbn [afterRace].
    destruct (IH (next (set_withError f true)) Hrest Hhk) as (f' & Hf & Hi & Hc).
    destruct (forOf sm (pre ++ hk :: post) (next (set_withError f true))) as [st effs].
    cbn [fst snd] in *. exists f'. split; [assumption|]. split.
    + rewrite Hi. cbn [next set_withError index List.length]. lia.
    + rewrite callsOf_app. unfold say at 1.
      rewrite callsOf_app, callsOf_emitLog.
      change (callsOf (Settled p (Thrown e) :: say sm (Unsuccessful (name p) e) ++ effs))
        with (callsOf (say sm (Unsuccessful (name p) e) ++ effs)).
      rewrite callsOf_app. unfold say. rewrite callsOf_emitLog, Hc. reflexivity.
Qed.

(** X5.  An accepted trigger that returns without having suspended has run
    the whole sequence: every handler of the registry has been called and
    has thrown before returning, and [process.exit] has been called, with
    status 0 for an empty registry and 1 otherwise.  When some registered
    handler returns, the call suspends at the first such hook: the handlers
    before it, which all throw, and that one have been called, no other,
    and [process.exit] has not been called when the call returns. *)
Theorem X5_trigger_without_suspension w s :
  shuttingDown (this w) = false ->
  let r := processSignal w s in
  (suspended (fst r) = None ->
     Forall throwsSync (handlers (this (fst r)))
     /\ callsOf (snd r) = handlers (this (fst r))
     /\ exitsOf (snd r) = [match handlers (this (fst r)) with [] => 0 | _ => 1 end])
  /\ (forall pre hk post,
        handlers (this w) = pre ++ hk :: post ->
        Forall throwsSync pre -> ~ throwsSync hk ->
        (exists f, suspended (fst r) = Some f /\ index f = List.length pre)
        /\ callsOf (snd r) = pre ++ [hk]
        /\ exitsOf (snd r) = []).
Proof.
  intros Hsd r.
  assert (Hhs : handlers (this (fst r)) = handlers (this w))
    by apply processSignal_handlers.
  rewrite Hhs. unfold r. rewrite processSignal_start by assumption. cbn [fst snd].
  set (w1 := with_this w (set_abortController (set_shuttingDown (this w) true)
                            (fst (abort (abortController (this w)))))).
  assert (Hloop : runLoop w1 (firstFrame w s) =
                  let '(st, effs) := forOf (this w1) (handlers (this w)) (firstFrame w s) in
                  match st with
                  | Pending f' => (with_suspended w1 (Some f'), effs)
                  | Finished f' =>
                      let '(w', effs') := finish w1 f' in (w', effs ++ effs')
                  end) by reflexivity.
  rewrite exitsOf_start, callsOf_start.
  pose proof (exitsOf_forOf (this w1) (handlers (this w)) (firstFrame w s)) as Hex.
  split.
  - intros Hnone.
    assert (Hall : Forall throwsSync (handlers (this w))).
    { destruct (Forall_dec throwsSync) with (l := handlers (this w)) as [Hall|Hn];
        [|assumption|].
      - intros hk. unfold throwsSync. destruct (handler hk);
          [left; eexists; reflexivity| | |]; right; intros [e0 E]; discriminate E.
      - exfalso. destruct (forOf_suspends (this w1) _ (firstFrame w s) Hn) as [f' Hf].
        rewrite Hloop in Hnone.
        destruct (forOf (this w1) (handlers (this w)) (firstFrame w s)) as [st effs].
        simpl in Hf. subst st. simpl in Hnone. discriminate. }
    split; [exact Hall|]. split.
    + rewrite (runLoop_exhausts w1 (firstFrame w s) Hnone). reflexivity.
    + destruct (forOf_finishes (this w1) _ (firstFrame w s) Hall) as (f' & Hf & Hw & Hfe).
      rewrite Hloop.
      destruct (forOf (this w1) (handlers (this w)) (firstFrame w s)) as [st effs].
      simpl in Hf, Hex. subst st.
      pose proof (exitsOf_finish w1 f') as Hfin.
      destruct (finish w1 f') as [w' effs']. cbn [snd] in *.
      rewrite exitsOf_app, Hex, Hfin, Hw, Hfe. simpl.
      destruct (handlers (this w)); reflexivity.
  - intros pre hk post Hreg Hpre Hhk.
    destruct (forOf_first_returning (this w1) pre hk post (firstFrame w s) Hpre Hhk)
      as (f' & Hf & Hi & Hc).
    rewrite Hloop. rewrite Hreg in *.
    destruct (forOf (this w1) (pre ++ hk :: post) (firstFrame w s)) as [st effs].
    cbn [fst snd] in *. subst st. cbn [fst snd suspended with_suspended].
    split; [exists f'; split; [reflexivity|exact Hi]|]. split; assumption.
Qed.

Lemma X5_trigger_without_suspension_witness :
  let w := fst (lifetime withLogger 0 [] 0
                  [AddHook "foo" (Throws (ErrorObject "x")); AddHook "bar" Never;
                   AddHook "baz" Never]) in
  callsOf (snd (processSignal w "SIGINT"))
  = [{| name := "foo"; handler := Throws (ErrorObject "x") |};
     {| name := "bar"; handler := Never |}]
  /\ exitsOf (snd (processSignal w "SIGINT")) = [].
Proof.
  intros w.
  destruct (X5_trigger_without_suspension w "SIGINT" eq_refl) as (_ & H).
  destruct (H [{| name := "foo"; handler := Throws (ErrorObject "x") |}]
              {| name := "bar"; handler := Never |}
              [{| name := "baz"; handler := Never |}] eq_refl) as (_ & Hc & He).
  - repeat constructor. eexists. reflexivity.
  - intros [e E]. discriminate E.
  - split; assumption.
Defined.

(** ** Disconnecting, before and during the sequence *)

Lemma lifetime_table options h t now ins :
  foreignOnly t ->
  let w := fst (lifetime options h t now ins) in
  TableInv t (signals (this w)) (listeners w).
Proof.
  intros Hf w. set (w0 := construct options h t now).
  assert (H0 : listeners w0 = t ++ subscriptions (signals (this w0))).
  { unfold w0, construct. cbn [listeners this]. rewrite bind_on. reflexivity. }
  destruct (exec_table t ins w0 Hf (or_introl H0)) as [HT Hs].
  change (fst (exec w0 ins)) with w in HT, Hs. rewrite Hs. exact HT.
Qed.

Lemma disconnect_listeners t w :
  foreignOnly t ->
  TableInv t (signals (this w)) (listeners w) ->
  listeners (disconnect w) = filter (keep (signals (this w))) t.
Proof.
  intros Hf HT. unfold disconnect, with_listeners. cbn [listeners].
  destruct HT as [E|E]; rewrite E;
    [apply bind_off_subscribed|apply bind_off_foreign]; assumption.
Qed.

Lemma registrationLines_quiet logger ins :
  callsOf (registrationLines logger ins) = []
  /\ exitsOf (registrationLines logger ins) = []
  /\ abortsOf (registrationLines logger ins) = [].
Proof.
  unfold registrationLines.
  induction (addedBy ins) as [|hk l IH]; [repeat split|].
  destruct IH as (I1 & I2 & I3). cbn [flat_map].
  rewrite callsOf_app, exitsOf_app. unfold abortsOf in *.
  rewrite flat_map_app, I1, I2, I3.
  destruct logger; repeat split.
Qed.

Lemma exec_disconnected_idle t ins : forall w,
  foreignOnly t ->
  listeners w = filter (keep (signals (this w))) t ->
  shuttingDown (this w) = false ->
  suspended w = None ->
  let w' := fst (exec w ins) in
  shuttingDown (this w') = false
  /\ suspended w' = None
  /\ listeners w' = listeners w
  /\ snd (exec w ins) = registrationLines (log (this w)) ins.
Proof.
  induction ins as [|i ins IH]; intros w Hf Hl Hsd Hsus.
  - simpl. repeat split; assumption.
  - assert (Hfo : foreignOnly (listeners w)).
    { rewrite Hl. apply foreignOnly_filter. assumption. }
    assert (Hstep : shuttingDown (this (fst (step w i))) = false
                    /\ suspended (fst (step w i)) = None
                    /\ listeners (fst (step w i)) = listeners w
                    /\ signals (this (fst (step w i))) = signals (this w)
                    /\ log (this (fst (step w i))) = log (this w)
                    /\ snd (step w i) = registrationLines (log (this w)) [i]).
    { destruct i; cbn [step].
      - unfold registrationLines. simpl. rewrite app_nil_r. repeat split; assumption.
      - cbn [fst snd]. repeat split; try assumption.
        unfold disconnect, with_listeners. cbn [listeners].
        rewrite Hl. apply bind_off_foreign. assumption.
      - rewrite (emit_foreign w em Hfo). repeat split; assumption.
      - unfold resume. rewrite Hsus. repeat split; assumption. }
    destruct Hstep as (A & B & C & D & E & F).
    rewrite exec_cons. cbn [fst snd].
    destruct (IH (fst (step w i)) Hf) as (A' & B' & C' & D'); try assumption.
    { rewrite C, D. assumption. }
    split; [assumption|]. split; [assumption|]. split; [congruence|].
    rewrite D', F, E. unfold registrationLines, addedBy.
    rewrite <- flat_map_app. f_equal. simpl. destruct i; reflexivity.
Qed.

(** X9.  A coordinator that is disconnected while idle never shuts down:
    whatever inputs follow (signals, uncaught errors, resumptions, more
    calls of [addHook] and [disconnect]), the latch stays clear, no handler
    is ever called, [process.exit] is never called, and the only effects are
    the registration lines of the hooks added. *)
Theorem X9_disconnected_idle_never_shuts_down options h t now ins later :
  foreignOnly t ->
  let w := fst (lifetime options h t now ins) in
  shuttingDown (this w) = false ->
  let after := exec (disconnect w) later in
  shuttingDown (this (fst after)) = false
  /\ snd after = registrationLines (log (this w)) later
  /\ callsOf (snd after) = []
  /\ exitsOf (snd after) = []
  /\ abortsOf (snd after) = [].
Proof.
  intros Hf w Hsd after.
  pose proof (lifetime_inv options h t now ins) as HI. fold w in HI.
  destruct (facts_idle _ _ _ (phase_facts _ _ _ HI) Hsd) as [Hsus _].
  pose proof (disconnect_listeners t w Hf (lifetime_table options h t now ins Hf)) as Hl.
  destruct (exec_disconnected_idle t later (disconnect w) Hf Hl Hsd Hsus)
    as (A & _ & _ & D).
  fold after in A, D. split; [exact A|]. split; [exact D|].
  rewrite D. apply registrationLines_quiet.
Qed.

Lemma X9_disconnected_idle_never_shuts_down_witness :
  let w := fst (lifetime withLogger 0 [] 0 [AddHook "foo" Never]) in
  snd (exec (disconnect w) [Emit (EmitSignal "SIGINT"); AddHook "bar" Never;
                            Emit (EmitUncaughtException Null); Resume])
  = [Log (Registered "bar")].
Proof.
  intros w.
  destruct (X9_disconnected_idle_never_shuts_down withLogger 0%nat [] 0
              [AddHook "foo" Never]
              [Emit (EmitSignal "SIGINT"); AddHook "bar" Never;
               Emit (EmitUncaughtException Null); Resume])
    as (_ & H & _).
  - constructor.
  - reflexivity.
  - exact H.
Defined.

Lemma process_exit_foreign w code :
  foreignOnly (listeners w) -> process_exit w code = [Exit code].
Proof.
  intros Hf. unfold process_exit. f_equal.
  pose proof (listenersOf_foreign exit _ Hf) as H.
  induction H as [|l ls Hl _ IH]; [reflexivity|].
  simpl. rewrite IH. destruct l; try discriminate. reflexivity.
Qed.

Lemma runPart_emitLog logger l :
  isRunEffect (Log l) = true -> runPart (emitLog logger l) = emitLog logger l.
Proof. intros H. apply runPart_id, emitLog_run. exact H. Qed.

Lemma runLoop_relisten w ls f :
  foreignOnly ls ->
  runLoop (with_listeners w ls) f
  = (with_listeners (fst (runLoop w f)) ls, runPart (snd (runLoop w f))).
Proof.
  intros Hf. unfold runLoop. cbn [this with_listeners].
  pose proof (forOf_effects_run (this w) (skipn (index f) (handlers (this w))) f) as Hr.
  destruct (forOf (this w) (skipn (index f) (handlers (this w))) f) as [[f'|f'] e1];
    cbn [fst snd] in *.
  - rewrite (runPart_id _ Hr). reflexivity.
  - unfold finish. cbn [fst snd this with_listeners].
    rewrite (process_exit_foreign (with_listeners w ls)) by exact Hf.
    rewrite !runPart_app, runPart_process_exit, (runPart_id _ Hr).
    unfold say. rewrite runPart_emitLog by reflexivity.
    destruct (withError f'); destruct (forceExit f');
      rewrite ?runPart_emitLog by reflexivity; reflexivity.
Qed.

Lemma resume_relisten w ls :
  foreignOnly ls ->
  resume (with_listeners w ls)
  = (with_listeners (fst (resume w)) ls, runPart (snd (resume w))).
Proof.
  intros Hf. unfold resume. cbn [suspended this clock with_listeners].
  destruct (suspended w) as [f|]; [|reflexivity].
  destruct (nth_error (handlers (this w)) (index f)) as [hk|]; [|reflexivity].
  destruct (race _ _ _ _) as [tm c].
  pose proof (afterRace_effects (this w) hk c f) as He.
  destruct (afterRace (this w) hk c f) as [f1 e1]. cbn [snd] in He.
  change (with_clock (with_listeners w ls) tm) with (with_listeners (with_clock w tm) ls).
  rewrite (runLoop_relisten _ _ _ Hf).
  destruct (runLoop (with_clock w tm) (next f1)) as [w1 e2]. cbn [fst snd].
  change (Settled hk c :: e1 ++ e2) with ([Settled hk c] ++ e1 ++ e2).
  rewrite !runPart_app, He, (runPart_id (report _ _ _)) by apply report_run.
  reflexivity.
Qed.

Lemma drain_relisten ls n : forall w,
  foreignOnly ls ->
  exec (with_listeners w ls) (repeat Resume n)
  = (with_listeners (fst (exec w (repeat Resume n))) ls,
     runPart (snd (exec w (repeat Resume n)))).
Proof.
  induction n as [|n IH]; intros w Hf; [reflexivity|].
  simpl repeat. rewrite !exec_cons. cbn [step].
  rewrite (resume_relisten w ls Hf). cbn [fst snd].
  rewrite (IH _ Hf). cbn [fst snd]. rewrite runPart_app. reflexivity.
Qed.

(** X10.  [disconnect()] does not cancel a sequence in flight.  Resumed
    after a disconnect, the sequence goes through the same worlds (but for
    the listener table) and has exactly the run's own effects of the
    sequence that was not disconnected: the same handler calls, completions,
    log lines and exit status.  Only the line of [#onExit] is missing.  In
    particular the disconnected sequence still calls [process.exit]. *)
Theorem X10_disconnect_does_not_cancel options h t now ins n :
  foreignOnly t ->
  let w := fst (lifetime options h t now ins) in
  let d := disconnect w in
  exec d (repeat Resume n)
  = (with_listeners (fst (exec w (repeat Resume n))) (listeners d),
     runPart (snd (exec w (repeat Resume n))))
  /\ (forall f, suspended w = Some f ->
        n = List.length (handlers (this w)) ->
        suspended (fst (exec d (repeat Resume n))) = None
        /\ List.length (exitsOf (snd (exec d (repeat Resume n)))) = 1%nat
        /\ forall c, ~ In (Log (Exiting c)) (snd (exec d (repeat Resume n)))).
Proof.
  intros Hf w d.
  pose proof (disconnect_listeners t w Hf (lifetime_table options h t now ins Hf)) as Hl.
  assert (Hfd : foreignOnly (listeners d)).
  { unfold d. rewrite Hl. apply foreignOnly_filter. assumption. }
  assert (E : exec d (repeat Resume n)
              = (with_listeners (fst (exec w (repeat Resume n))) (listeners d),
                 runPart (snd (exec w (repeat Resume n))))).
  { apply (drain_relisten (listeners d) n w Hfd). }
  split; [exact E|].
  intros f Hsus ->. rewrite E. cbn [fst snd].
  pose proof (lifetime_inv options h t now ins) as HI. fold w in HI.
  set (tr := snd (lifetime options h t now ins)) in *.
  set (n := List.length (handlers (this w))) in *.
  destruct (drain _ n w tr HI) as [Hnone Hthis].
  { intros f' _. unfold n. lia. }
  pose proof (drain_inv _ n _ _ HI) as HI2.
  pose proof (facts_exits _ _ _ (phase_facts _ _ _ HI2)) as Hex.
  pose proof (phase_facts _ _ _ HI) as F.
  destruct (facts_index _ _ _ F f Hsus) as (_ & _ & _ & Hsd & _).
  rewrite Hnone, Hthis, Hsd in Hex. simpl in Hex.
  pose proof (facts_exits _ _ _ F) as Hex0. rewrite Hsus, Hsd in Hex0. simpl in Hex0.
  rewrite exitsOf_app, Hex0 in Hex. simpl in Hex.
  split; [exact Hnone|]. split.
  - rewrite exitsOf_runPart, Hex. reflexivity.
  - intros c Hin. unfold runPart in Hin. apply filter_In in Hin.
    destruct Hin as [_ Hin]. discriminate.
Qed.

Lemma X10_disconnect_does_not_cancel_witness :
  let w := fst (lifetime withLogger 0 [] 0 [AddHook "foo" Never; Emit (EmitSignal "SIGINT")]) in
  suspended (fst (exec (disconnect w) (repeat Resume 1))) = None
  /\ List.length (exitsOf (snd (exec (disconnect w) (repeat Resume 1)))) = 1%nat.
Proof.
  intros w.
  destruct (X10_disconnect_does_not_cancel withLogger 0%nat [] 0
              [AddHook "foo" Never; Emit (EmitSignal "SIGINT")] 1) as (_ & H).
  - constructor.
  - destruct (H _ eq_refl eq_refl) as (A & B & _). split; assumption.
Defined.

(** ** The whole trace of a run *)

(** X11.  Once a shutdown sequence has started, the run's own effects are
    laid out in one fixed order: the line of the signal and the abort; then
    for each hook dealt with, in turn, its line, its call, its completion
    and the report of the completion; then either the line and the call of
    the hook being awaited, or, when the sequence is over, the completion
    line, the warnings and the call of [process.exit], which comes last.
    The hooks dealt with are the first ones of the registry, the hook
    awaited is the next one, and the line of the end names the signal of
    the beginning. *)
Theorem X11_trace_of_a_run options h t now ins :
  let w := fst (lifetime options h t now ins) in
  let tr := snd (lifetime options h t now ins) in
  let lg := log (this w) in
  shuttingDown (this w) = true ->
  (exists s,
     runPart tr
     = prologue lg s ++ flat_map (block lg) (settlementsOf tr)
       ++ match suspended w with
          | Some f =>
              match nth_error (handlers (this w)) (index f) with
              | Some hk => started lg hk
              | None => []
              end
          | None => epilogue lg s (map snd (settlementsOf tr))
          end)
  /\ (exists rest, handlers (this w) = map fst (settlementsOf tr) ++ rest)
  /\ (forall f, suspended w = Some f ->
        index f = List.length (settlementsOf tr)
        /\ exists hk, nth_error (handlers (this w)) (index f) = Some hk).
Proof.
  intros w tr lg Hsd.
  pose proof (lifetime_inv options h t now ins) as HI. fold w tr in HI.
  pose proof (phase_facts _ _ _ HI) as F.
  assert (Hlg : log (this (construct options h t now)) = lg) by (symmetry; apply HI).
  rewrite Hlg in HI, F.
  split; [exact (phase_shape _ _ _ HI Hsd)|].
  split; [exact (facts_settled_prefix _ _ _ F)|].
  intros f Hf. destruct (facts_index _ _ _ F f Hf) as (A & _ & _ & _ & _ & hk & B & _).
  split; [exact A|]. exists hk. exact B.
Qed.

Lemma X11_trace_of_a_run_witness :
  let run := lifetime withLogger 0 [] 0
               [AddHook "foo" (After 1 Fulfils); Emit (EmitSignal "SIGINT"); Resume] in
  exists s,
    runPart (snd run)
    = prologue true s ++ flat_map (block true) (settlementsOf (snd run))
      ++ epilogue true s (map snd (settlementsOf (snd run))).
Proof.
  intros run.
  destruct (X11_trace_of_a_run withLogger 0%nat [] 0
              [AddHook "foo" (After 1 Fulfils); Emit (EmitSignal "SIGINT"); Resume])
    as ((s & H) & _).
  - reflexivity.
  - exists s. exact H.
Defined.

(** ** The exit listener *)

Lemma ExitsLogged_app logger a b :
  ExitsLogged logger a -> ExitsLogged logger b -> ExitsLogged logger (a ++ b).
Proof.
  unfold ExitsLogged, exitLinesOf. intros Ha Hb.
  rewrite flat_map_app, exitsOf_app. fold (exitLinesOf a) (exitLinesOf b).
  unfold exitLinesOf in *. rewrite Ha, Hb. destruct logger; reflexivity.
Qed.

Lemma ExitsLogged_nil logger : ExitsLogged logger [].
Proof. unfold ExitsLogged. destruct logger; reflexivity. Qed.

Lemma ExitsLogged_emitLog logger lg l :
  (forall c, l <> Exiting c) -> ExitsLogged logger (emitLog lg l).
Proof.
  intros H. unfold ExitsLogged. rewrite exitsOf_emitLog.
  destruct lg; simpl; [|destruct logger; reflexivity].
  destruct l; try (destruct logger; reflexivity).
  exfalso. eapply H. reflexivity.
Qed.

Lemma ExitsLogged_run logger tr :
  Forall (fun e => isRunEffect e = true) tr -> exitsOf tr = [] -> ExitsLogged logger tr.
Proof.
  intros Hr He. unfold ExitsLogged. rewrite He.
  assert (H : exitLinesOf tr = []).
  { clear He. induction Hr as [|e tr Hrun _ IH]; [reflexivity|].
    unfold exitLinesOf in *. cbn [flat_map]. rewrite IH.
    destruct e as [l| | | |]; try reflexivity. destruct l; try reflexivity. discriminate. }
  rewrite H. destruct logger; reflexivity.
Qed.

(** [process.exit] on a coordinator that is connected: the exit, then the
    line of its own listener. *)
Lemma process_exit_connected w t code :
  foreignOnly t ->
  listeners w = t ++ subscriptions (signals (this w)) ->
  process_exit w code = Exit code :: say (this w) (Exiting code).
Proof.
  intros Hf Hl. unfold process_exit. f_equal.
  rewrite Hl, listenersOf_app, flat_map_app, subscriptions_listeners.
  pose proof (listenersOf_foreign exit _ Hf) as H.
  assert (E : flat_map (fun l => match l with OnExitFn => onExit w code | _ => [] end)
                       (Process.listenersOf exit t) = []).
  { induction H as [|l ls Hl' _ IH]; [reflexivity|].
    simpl. rewrite IH. destruct l; try discriminate. reflexivity. }
  rewrite E. simpl. rewrite app_nil_r. reflexivity.
Qed.

Lemma exitsOf_report logger hk c : exitsOf (report logger hk c) = [].
Proof.
  unfold report. destruct c as [r|e]; [|apply exitsOf_emitLog].
  destruct (strictEqualsString r "timeout"); [apply exitsOf_emitLog|].
  destruct (strictEqualsString r "global-timeout"); [reflexivity|apply exitsOf_emitLog].
Qed.

Lemma runLoop_exits_logged w t f :
  foreignOnly t ->
  listeners w = t ++ subscriptions (signals (this w)) ->
  ExitsLogged (log (this w)) (snd (runLoop w f)).
Proof.
  intros Hf Hl. unfold runLoop.
  pose proof (forOf_effects_run (this w) (skipn (index f) (handlers (this w))) f) as Hr.
  pose proof (exitsOf_forOf (this w) (skipn (index f) (handlers (this w))) f) as He.
  destruct (forOf (this w) (skipn (index f) (handlers (this w))) f) as [[f'|f'] e1];
    cbn [fst snd] in *.
  - apply ExitsLogged_run; assumption.
  - unfold finish. cbn [snd].
    apply ExitsLogged_app; [apply ExitsLogged_run; assumption|].
    rewrite (process_exit_connected w t _ Hf Hl). unfold say.
    repeat apply ExitsLogged_app.
    + apply ExitsLogged_emitLog. discriminate.
    + destruct (withError f'); [apply ExitsLogged_emitLog; discriminate|apply ExitsLogged_nil].
    + destruct (forceExit f'); [apply ExitsLogged_emitLog; discriminate|apply ExitsLogged_nil].
    + unfold ExitsLogged. destruct (log (this w)); reflexivity.
Qed.

Lemma processSignal_exits_logged w t s :
  foreignOnly t ->
  listeners w = t ++ subscriptions (signals (this w)) ->
  ExitsLogged (log (this w)) (snd (processSignal w s)).
Proof.
  intros Hf Hl. destruct (shuttingDown (this w)) eqn:Hsd.
  - rewrite processSignal_guard by assumption. cbn [snd].
    apply ExitsLogged_emitLog. discriminate.
  - rewrite processSignal_start by assumption. cbn [snd].
    repeat apply ExitsLogged_app.
    + apply ExitsLogged_emitLog. discriminate.
    + unfold abort. destruct (aborted (abortController (this w)));
        unfold ExitsLogged; destruct (log (this w)); reflexivity.
    + match goal with
      | |- context [runLoop ?W ?F] =>
          apply (runLoop_exits_logged W t F Hf)
      end.
      exact Hl.
Qed.

Lemma callListener_exits_logged w t l em :
  foreignOnly t ->
  listeners w = t ++ subscriptions (signals (this w)) ->
  (forall c, em <> EmitExit c) ->
  ExitsLogged (log (this w)) (snd (callListener w l em)).
Proof.
  intros Hf Hl Hem.
  assert (Herr : forall e, ExitsLogged (log (this w)) (snd (processErrors w e))).
  { intros e. unfold processErrors.
    pose proof (processSignal_exits_logged w t "SIGUSR2" Hf Hl) as H.
    destruct (processSignal w "SIGUSR2") as [w1 e1]. cbn [snd] in *.
    apply ExitsLogged_app; [|exact H].
    apply ExitsLogged_emitLog. discriminate. }
  destruct l; destruct em; cbn [callListener snd];
    try apply ExitsLogged_nil; try apply Herr;
    try (apply (processSignal_exits_logged w t _ Hf Hl)).
  exfalso. eapply Hem. reflexivity.
Qed.

Lemma callListener_connected w t l em :
  listeners w = t ++ subscriptions (signals (this w)) ->
  listeners (fst (callListener w l em))
  = t ++ subscriptions (signals (this (fst (callListener w l em))))
  /\ log (this (fst (callListener w l em))) = log (this w).
Proof.
  intros Hl.
  assert (Hsig : forall s,
            listeners (fst (processSignal w s))
            = t ++ subscriptions (signals (this (fst (processSignal w s))))
            /\ log (this (fst (processSignal w s))) = log (this w)).
  { intros s. rewrite processSignal_listeners.
    rewrite (ev_signals _ _ (processSignal_evolves w s)).
    rewrite (ev_log _ _ (processSignal_evolves w s)). split; [exact Hl|reflexivity]. }
  assert (Herr : forall e, fst (processErrors w e) = fst (processSignal w "SIGUSR2")).
  { intros e. unfold processErrors. destruct (processSignal w "SIGUSR2"); reflexivity. }
  destruct l; destruct em; cbn [callListener fst];
    rewrite ?Herr; try apply Hsig; split; (exact Hl || reflexivity).
Qed.

Lemma callAll_exits_logged t ls em : forall w,
  foreignOnly t ->
  listeners w = t ++ subscriptions (signals (this w)) ->
  (forall c, em <> EmitExit c) ->
  ExitsLogged (log (this w)) (snd (callAll w ls em)).
Proof.
  induction ls as [|l ls IH]; intros w Hf Hl Hem; [apply ExitsLogged_nil|].
  cbn [callAll].
  pose proof (callListener_exits_logged w t l em Hf Hl Hem) as H1.
  destruct (callListener_connected w t l em Hl) as [Hl1 Hlog1].
  destruct (callListener w l em) as [w1 e1]. cbn [fst snd] in *.
  specialize (IH w1 Hf Hl1 Hem). rewrite Hlog1 in IH.
  destruct (callAll w1 ls em) as [w2 e2]. cbn [snd] in *.
  apply ExitsLogged_app; assumption.
Qed.

Lemma resume_exits_logged w t :
  foreignOnly t ->
  listeners w = t ++ subscriptions (signals (this w)) ->
  ExitsLogged (log (this w)) (snd (resume w)).
Proof.
  intros Hf Hl. unfold resume.
  destruct (suspended w) as [f|]; [|apply ExitsLogged_nil].
  destruct (nth_error (handlers (this w)) (index f)) as [hk|]; [|apply ExitsLogged_nil].
  destruct (race _ _ _ _) as [tm c].
  pose proof (afterRace_effects (this w) hk c f) as He.
  destruct (afterRace (this w) hk c f) as [f1 e1]. cbn [snd] in He.
  pose proof (runLoop_exits_logged (with_clock w tm) t (next f1) Hf Hl) as H.
  destruct (runLoop (with_clock w tm) (next f1)) as [w1 e2]. cbn [snd] in *.
  change (Settled hk c :: e1 ++ e2) with ([Settled hk c] ++ e1 ++ e2).
  repeat apply ExitsLogged_app.
  - unfold ExitsLogged. destruct (log (this w)); reflexivity.
  - rewrite He. apply ExitsLogged_run; [apply report_run|apply exitsOf_report].
  - exact H.
Qed.

Lemma exec_exits_logged t ins : forall w,
  foreignOnly t ->
  listeners w = t ++ subscriptions (signals (this w)) ->
  neverDisconnected ins = true ->
  noExitEvents ins = true ->
  ExitsLogged (log (this w)) (snd (exec w ins)).
Proof.
  induction ins as [|i ins IH]; intros w Hf Hl Hd He; [apply ExitsLogged_nil|].
  simpl in Hd, He. apply andb_true_iff in Hd, He.
  destruct Hd as [Hdi Hd]. destruct He as [Hei He].
  rewrite exec_cons. cbn [snd].
  assert (Hl1 : listeners (fst (step w i))
                = t ++ subscriptions (signals (this (fst (step w i))))).
  { rewrite step_listeners, (ev_signals _ _ (step_evolves w i)).
    destruct i; try exact Hl. discriminate. }
  pose proof (IH (fst (step w i)) Hf Hl1 Hd He) as H2.
  rewrite (ev_log _ _ (step_evolves w i)) in H2.
  apply ExitsLogged_app; [|exact H2].
  destruct i; cbn [step].
  - cbn [addHook snd]. apply ExitsLogged_emitLog. discriminate.
  - apply ExitsLogged_nil.
  - apply (callAll_exits_logged t _ em w Hf Hl).
    intros c ->. discriminate.
  - apply (resume_exits_logged w t Hf Hl).
Qed.

(** X12.  While the coordinator is connected, every call of [process.exit]
    it makes comes with the line of [#onExit] for the same status code, and
    [#onExit] logs nothing else: the codes of the exit lines are the codes
    of the exits (none without a logger).  An [exit] event emitted on a
    connected coordinator logs that line and changes nothing. *)
Theorem X12_exit_listener_reports_the_status options h t now ins :
  foreignOnly t ->
  neverDisconnected ins = true ->
  noExitEvents ins = true ->
  let w := fst (lifetime options h t now ins) in
  let tr := snd (lifetime options h t now ins) in
  exitLinesOf tr = (if log (this w) then exitsOf tr else [])
  /\ (forall code, process_exit w code = Exit code :: emitLog (log (this w)) (Exiting code))
  /\ (forall code, emit w (EmitExit code) = (w, emitLog (log (this w)) (Exiting code))).
Proof.
  intros Hf Hd He w tr.
  pose proof (connected_listeners options h t now ins Hd) as Hl. fold w in Hl.
  split; [|split].
  - set (w0 := construct options h t now).
    assert (Hl0 : listeners w0 = t ++ subscriptions (signals (this w0))).
    { unfold w0, construct. cbn [listeners this]. rewrite bind_on. reflexivity. }
    pose proof (exec_exits_logged t ins w0 Hf Hl0 Hd He) as H.
    unfold ExitsLogged in H.
    rewrite <- (ev_log _ _ (exec_evolves ins w0)) in H. exact H.
  - intros code. apply (process_exit_connected w t code Hf Hl).
  - intros code. rewrite (emit_connected w t _ Hf Hl).
    cbn [eventOf]. rewrite subscriptions_listeners.
    cbn [callAll callListener]. unfold onExit, say. rewrite app_nil_r. reflexivity.
Qed.

Lemma X12_exit_listener_reports_the_status_witness :
  exitLinesOf (snd (lifetime withLogger 0 [] 0
                      [AddHook "foo" (After 1 (Rejects Null));
                       Emit (EmitSignal "SIGINT"); Resume]))
  = [1].
Proof.
  destruct (X12_exit_listener_reports_the_status withLogger 0%nat [] 0
              [AddHook "foo" (After 1 (Rejects Null)); Emit (EmitSignal "SIGINT"); Resume])
    as (H & _).
  - constructor.
  - reflexivity.
  - reflexivity.
  - exact H.
Defined.
